(** * A Redis-backed Bloom filter: shallow embedding of package [bloom]

    The development follows the Go sources file by file:
    - machine integers ([uint64], [uint], [int64]) are [Z] with the
      wrap-around written out;
    - [HashStrategy] is an interface with one method, here a record;
    - the remote store is reached through the [RedisClient] and
      [pipeliner] interfaces only; the engine is generic in the state of
      the outside world and every call made on the interfaces is logged;
    - a runtime panic (integer division by zero, nil dereference) is a
      separate outcome of a call. *)

From Stdlib Require Import ZArith List Bool Lia Floats Strings.Byte.
From stdpp Require Import gmap strings.
Import ListNotations.

Local Open Scope Z_scope.

(** ** Machine integers *)

Module Word.

Definition two64 : Z := 2 ^ 64.
Definition two63 : Z := 2 ^ 63.
Definition two32 : Z := 2 ^ 32.

(** Arithmetic on [uint64] wraps modulo [2^64]. *)
Definition u64 (z : Z) : Z := z mod two64.

(** Arithmetic on [uint32] wraps modulo [2^32]. *)
Definition u32 (z : Z) : Z := z mod two32.

(** The conversion [int64(x)] of a [uint64] keeps the bit pattern. *)
Definition int64 (z : Z) : Z := if z <? two63 then z else z - two64.

(** The conversion [byte(x)] keeps the low eight bits. *)
Definition byte_of (z : Z) : byte :=
  match Byte.of_N (Z.to_N (z mod 256)) with
  | Some b => b
  | None => Byte.x00
  end.

Definition byte_val (b : byte) : Z := Z.of_N (Byte.to_N b).

End Word.
Import Word.

(** ** Hash strategies (the [HashStrategy] interface and its three
    implementations) *)

Record HashStrategy : Type := mkHashStrategy {
  Hash : list byte -> Z -> Z
}.

(** The four low bytes of [seed], least significant first:
    [{byte(seed), byte(seed >> 8), byte(seed >> 16), byte(seed >> 24)}]. *)
Definition seed_bytes (seed : Z) : list byte :=
  [ byte_of seed; byte_of (Z.shiftr seed 8);
    byte_of (Z.shiftr seed 16); byte_of (Z.shiftr seed 24) ].

(** FNV-1a, 64 bits, as [hash/fnv] computes it: every byte written is
    xor-ed into the state, which is then multiplied by the prime. *)
Module FNV.

Definition offset64 : Z := 14695981039346656037.
Definition prime64 : Z := 1099511628211.

Definition step (h : Z) (b : byte) : Z :=
  u64 (Z.lxor h (byte_val b) * prime64).

Definition Write (h : Z) (p : list byte) : Z := fold_left step p h.

Definition New64a : Z := offset64.

Definition Sum64 (h : Z) : Z := h.

End FNV.

Definition FNVStrategy_Hash (data : list byte) (i : Z) : Z :=
  let h := FNV.New64a in
  let seed := seed_bytes i in
  let h := FNV.Write h seed in
  let h := FNV.Write h data in
  FNV.Sum64 h.

Definition NewFNVStrategy : HashStrategy := mkHashStrategy FNVStrategy_Hash.

Section ExternalDigests.

(** The digests of [cespare/xxhash] and [spaolacci/murmur3] are outside
    this package: [xxhash_Sum64 bs] is the 64-bit digest of everything
    written, [murmur3_Sum32WithSeed data seed] the seeded 32-bit one. *)
Variable xxhash_Sum64 : list byte -> Z.
Variable murmur3_Sum32WithSeed : list byte -> Z -> Z.

Definition XXHashStrategy_Hash (data : list byte) (i : Z) : Z :=
  let seed := u64 (i * 0x9e3779b185ebca87) in
  xxhash_Sum64 (seed_bytes seed ++ data).

Definition Murmur3Strategy_Hash (data : list byte) (i : Z) : Z :=
  let seed := u32 (u32 i * 0x9e3779b9) in
  murmur3_Sum32WithSeed data seed.

Definition NewXXHashStrategy : HashStrategy :=
  mkHashStrategy XXHashStrategy_Hash.

Definition NewMurmur3Strategy : HashStrategy :=
  mkHashStrategy Murmur3Strategy_Hash.

End ExternalDigests.

(** ** Position generation *)

(** One round of the loop body:
    [position := (h1 + uint64(i)*h2) % bf.bitSize]. *)
Definition position (h1 h2 m i : Z) : Z := u64 (h1 + u64 (i * h2)) mod m.

(** The loop [for i := uint(0); i < bf.hashCount; i++], [n] rounds still
    to run.  The remainder panics when [bitSize] is zero. *)
Fixpoint fill_positions (n : nat) (i h1 h2 m : Z) : option (list Z) :=
  match n with
  | O => Some []
  | S n' =>
      if m =? 0 then None
      else
        match fill_positions n' (i + 1) h1 h2 m with
        | Some rest => Some (position h1 h2 m i :: rest)
        | None => None
        end
  end.

(** [h2] is made odd: [if h2%2 == 0 { h2++ }]. *)
Definition force_odd (h2 : Z) : Z :=
  if h2 mod 2 =? 0 then u64 (h2 + 1) else h2.

(** [make([]uint64, n)]: the runtime refuses a slice whose [n] words of
    eight bytes take more than [maxAlloc] bytes, [2^48] on the 64-bit
    platforms, and panics with "makeslice: len out of range"; otherwise
    the slice has [n] elements. *)
Definition maxAlloc : Z := 2 ^ 48.

Definition make_uint64s (n : Z) : option nat :=
  if n * 8 <=? maxAlloc then Some (Z.to_nat n) else None.

(** ** Errors, commands and the store interfaces *)

(** The four sentinel errors of the package; every other error value comes
    from the store client and is passed through untouched. *)
Inductive error : Type :=
  | ErrInvalidExpectedInsertions
  | ErrInvalidFalsePositiveRate
  | ErrEmptyRedisKey
  | ErrNilRedisClient
  | StoreError (msg : string).

(** A command queued on a pipeline. *)
Inductive Cmd : Type :=
  | SetBit (key : string) (offset : Z) (value : Z)
  | GetBit (key : string) (offset : Z).

(** A call that reaches the store: a flushed pipeline or an [Expire]. *)
Inductive Call : Type :=
  | CallExec (batch : list Cmd)
  | CallExpire (key : string) (ttl : Z).

(** What a Go function hands back; [nil] errors are [None]. *)
Inductive Result (A : Type) : Type :=
  | Ok (a : A)
  | Err (e : error).
Arguments Ok {A} a.
Arguments Err {A} e.

Section Engine.

(** State of everything behind the client: the remote keys, their
    expiry, the connection. *)
Variable W : Type.

(** [pipeliner]: [SetBit] and [GetBit] only queue; [Exec] sends the queue
    and yields the value of every queued command, in order, and the
    error of the exchange. *)
Record pipeliner : Type := mkPipeliner {
  Exec : list Cmd -> W -> (list Z * option error) * W
}.

(** The part of [redis.Cmdable] the package calls. *)
Record Cmdable : Type := mkCmdable {
  client_Pipeline : option pipeliner;
  client_Expire : string -> Z -> W -> option error * W
}.

(** [RedisClient] is an interface: its values are [*RedisAdapter] or any
    other type with the three methods.  The filter never calls the
    unpipelined [SetBit] and [GetBit]. *)
Inductive RedisClient : Type :=
  | RedisAdapter (client : Cmdable)
  | OtherClient (pipeline : option pipeliner).

(** [Pipeline()] followed by the assertion [.(pipeliner)], which fails on
    a nil interface value only. *)
Definition Pipeline (c : RedisClient) : option pipeliner :=
  match c with
  | RedisAdapter client => client_Pipeline client
  | OtherClient pipeline => pipeline
  end.

Definition NewRedisAdapter (client : Cmdable) : RedisClient :=
  RedisAdapter client.

(** ** Configuration and parameters *)

Record Config : Type := mkConfig {
  RedisKey : string;
  cfgRedisClient : option RedisClient;
  ExpectedInsertions : Z;
  FalsePositiveRate : float;
  TTL : Z;
  cfgHashStrategy : option HashStrategy
}.

(** The floating-point library and the conversions between [float64]
    and the unsigned integers belong to the Go runtime. *)
Variable math_Log : float -> float.
Variable math_Ceil : float -> float.
Variable float64_of_uint64 : Z -> float.
Variable uint64_of_float64 : float -> Z.
Variable uint_of_float64 : float -> Z.

(** [math.Ln2], the [float64] nearest to ln 2. *)
Definition math_Ln2 : float := 0x1.62e42fefa39efp-1%float.

Definition calculateOptimalParameters (n : Z) (p : float) : Z * Z :=
  let ln2 := math_Ln2 in
  let ln2Squared := PrimFloat.mul ln2 ln2 in
  let bitSize :=
    uint64_of_float64
      (math_Ceil
         (PrimFloat.div
            (PrimFloat.mul (PrimFloat.opp (float64_of_uint64 n)) (math_Log p))
            ln2Squared)) in
  let hashCount :=
    uint_of_float64
      (math_Ceil
         (PrimFloat.mul
            (PrimFloat.div (float64_of_uint64 bitSize) (float64_of_uint64 n))
            ln2)) in
  let hashCount := if hashCount <? 1 then 1 else hashCount in
  (bitSize, hashCount).

Record bloomFilter : Type := mkBloomFilter {
  config : Config;
  bitSize : Z;
  hashCount : Z;
  hashStrategy : HashStrategy
}.

Variable xxhash_Sum64 : list byte -> Z.

Definition NewBloomFilter (cfg : Config) : Result bloomFilter :=
  if ExpectedInsertions cfg =? 0 then Err ErrInvalidExpectedInsertions
  else if PrimFloat.leb (FalsePositiveRate cfg) 0
          || PrimFloat.leb 1 (FalsePositiveRate cfg)
  then Err ErrInvalidFalsePositiveRate
  else if String.eqb (RedisKey cfg) EmptyString then Err ErrEmptyRedisKey
  else
    match cfgRedisClient cfg with
    | None => Err ErrNilRedisClient
    | Some _ =>
        let '(bitSize, hashCount) :=
          calculateOptimalParameters
            (ExpectedInsertions cfg) (FalsePositiveRate cfg) in
        let strategy :=
          match cfgHashStrategy cfg with
          | None => NewXXHashStrategy xxhash_Sum64
          | Some s => s
          end in
        Ok {| config :=
                {| RedisKey := RedisKey cfg;
                   cfgRedisClient := cfgRedisClient cfg;
                   ExpectedInsertions := ExpectedInsertions cfg;
                   FalsePositiveRate := FalsePositiveRate cfg;
                   TTL := TTL cfg;
                   cfgHashStrategy := Some strategy |};
              bitSize := bitSize;
              hashCount := hashCount;
              hashStrategy := strategy |}
    end.

(** ** The filter engine *)

Definition getHashPositions (bf : bloomFilter) (data : list byte)
  : option (list Z) :=
  match make_uint64s (hashCount bf) with
  | None => None
  | Some _ =>
      let h1 := Hash (hashStrategy bf) data 0 in
      let h2 := Hash (hashStrategy bf) data 1 in
      let h2 := force_odd h2 in
      fill_positions (Z.to_nat (hashCount bf)) 0 h1 h2 (bitSize bf)
  end.

(** The world together with the log of the calls that reached it. *)
Record Sys : Type := mkSys {
  world : W;
  issued : list Call
}.

(** A call either panics or returns a value in a new state. *)
Inductive Outcome (A : Type) : Type :=
  | Panic
  | Return (a : A) (s : Sys).
Arguments Panic {A}.
Arguments Return {A} a s.

Definition send (c : Call) (w : W) (s : Sys) : Sys :=
  {| world := w; issued := issued s ++ [c] |}.

Definition set_batch (bf : bloomFilter) (positions : list Z) : list Cmd :=
  map (fun pos => SetBit (RedisKey (config bf)) (int64 pos) 1) positions.

Definition get_batch (bf : bloomFilter) (positions : list Z) : list Cmd :=
  map (fun pos => GetBit (RedisKey (config bf)) (int64 pos)) positions.

Definition Add (bf : bloomFilter) (data : list byte) (s : Sys)
  : Outcome (option error) :=
  match getHashPositions bf data with
  | None => Panic
  | Some positions =>
      match cfgRedisClient (config bf) with
      | None => Panic
      | Some client =>
          match Pipeline client with
          | None => Return (Some ErrNilRedisClient) s
          | Some pipe =>
              let cmds := set_batch bf positions in
              let '((_, err), w1) := Exec pipe cmds (world s) in
              let s1 := send (CallExec cmds) w1 s in
              match err with
              | Some e => Return (Some e) s1
              | None =>
                  if 0 <? TTL (config bf) then
                    match client with
                    | RedisAdapter adapter =>
                        let '(_, w2) :=
                          client_Expire adapter (RedisKey (config bf))
                            (TTL (config bf)) w1 in
                        Return None
                          (send (CallExpire (RedisKey (config bf))
                                   (TTL (config bf))) w2 s1)
                    | OtherClient _ => Return None s1
                    end
                  else Return None s1
              end
          end
      end
  end.

(** [cmd.Val()] of the [i]-th queued command; a command that got no
    reply holds zero. *)
Definition Vals (n : nat) (replies : list Z) : list Z :=
  map (fun i => nth i replies 0) (seq 0 n).

(** The closing loop of [Exists]. *)
Fixpoint all_set (vals : list Z) : bool :=
  match vals with
  | [] => true
  | v :: rest => if v =? 0 then false else all_set rest
  end.

Definition Exists (bf : bloomFilter) (data : list byte) (s : Sys)
  : Outcome (bool * option error) :=
  match getHashPositions bf data with
  | None => Panic
  | Some positions =>
      match cfgRedisClient (config bf) with
      | None => Panic
      | Some client =>
          match Pipeline client with
          | None => Return (false, Some ErrNilRedisClient) s
          | Some pipe =>
              let cmds := get_batch bf positions in
              let '((replies, err), w1) := Exec pipe cmds (world s) in
              let s1 := send (CallExec cmds) w1 s in
              match err with
              | Some e => Return (false, Some e) s1
              | None => Return (all_set (Vals (length cmds) replies), None) s1
              end
          end
      end
  end.

End Engine.

Arguments mkPipeliner {W} _.
Arguments Exec {W} _ _ _.
Arguments mkCmdable {W} _ _.
Arguments client_Pipeline {W} _.
Arguments client_Expire {W} _ _ _ _.
Arguments RedisAdapter {W} _.
Arguments OtherClient {W} _.
Arguments Pipeline {W} _.
Arguments mkConfig {W} _ _ _ _ _ _.
Arguments RedisKey {W} _.
Arguments cfgRedisClient {W} _.
Arguments ExpectedInsertions {W} _.
Arguments FalsePositiveRate {W} _.
Arguments TTL {W} _.
Arguments cfgHashStrategy {W} _.
Arguments mkBloomFilter {W} _ _ _ _.
Arguments config {W} _.
Arguments bitSize {W} _.
Arguments hashCount {W} _.
Arguments hashStrategy {W} _.
Arguments NewBloomFilter {W} _ _ _ _ _ _ _.
Arguments getHashPositions {W} _ _.
Arguments mkSys {W} _ _.
Arguments world {W} _.
Arguments issued {W} _.
Arguments Panic {W A}.
Arguments Return {W A} _ _.
Arguments send {W} _ _ _.
Arguments set_batch {W} _ _.
Arguments get_batch {W} _ _.
Arguments Add {W} _ _ _.
Arguments Exists {W} _ _ _.

(** ** The contract of the remote bit array

    The store is an external collaborator; the package sees it through
    [setBit], [getBit], [expire] and the batch.  The reference semantics
    below is the bit array those operations act on. *)

Definition Bits : Type := string -> Z -> bool.

Definition bit_reply (b : bool) : Z := if b then 1 else 0.

Definition write_bit (key : string) (offset : Z) (b : bool) (bits : Bits)
  : Bits :=
  fun k o =>
    if String.eqb k key && (o =? offset) then b else bits k o.

Definition cmd_bits (c : Cmd) (bits : Bits) : Bits :=
  match c with
  | SetBit key offset value => write_bit key offset (negb (value =? 0)) bits
  | GetBit _ _ => bits
  end.

(** [SETBIT] answers the previous bit, [GETBIT] the current one. *)
Definition cmd_reply (c : Cmd) (bits : Bits) : Z :=
  match c with
  | SetBit key offset _ => bit_reply (bits key offset)
  | GetBit key offset => bit_reply (bits key offset)
  end.

Fixpoint batch_bits (cmds : list Cmd) (bits : Bits) : Bits :=
  match cmds with
  | [] => bits
  | c :: rest => batch_bits rest (cmd_bits c bits)
  end.

Fixpoint batch_replies (cmds : list Cmd) (bits : Bits) : list Z :=
  match cmds with
  | [] => []
  | c :: rest => cmd_reply c bits :: batch_replies rest (cmd_bits c bits)
  end.

(** Modelled from the spec: the remote bit-array store of the external
    interfaces, whose code is not part of the package.  A batch that comes
    back without error has run every queued command, in order, on the bit
    array, and its replies are the bits ([setBit] answers the previous bit,
    [getBit] the current one); a batch that fails has written nothing but
    bits named in it (no rollback, bits already flushed stay); setting an
    expiry in the future clears nothing.  [bit_at] reads the bit array off
    the state of the world. *)
Record StoreContract {W : Type} (bit_at : W -> Bits) (client : RedisClient W)
  : Prop := mkStoreContract {
  exec_done :
    forall pipe cmds w replies w',
      Pipeline client = Some pipe ->
      Exec pipe cmds w = ((replies, None), w') ->
      replies = batch_replies cmds (bit_at w) /\
      forall k o, bit_at w' k o = batch_bits cmds (bit_at w) k o;
  exec_failed :
    forall pipe cmds w replies e w',
      Pipeline client = Some pipe ->
      Exec pipe cmds w = ((replies, Some e), w') ->
      forall k o,
        bit_at w' k o <> bit_at w k o ->
        exists v, In (SetBit k o v) cmds /\ bit_at w' k o = negb (v =? 0);
  expire_keeps :
    forall adapter key ttl w r w',
      client = RedisAdapter adapter ->
      0 < ttl ->
      client_Expire adapter key ttl w = (r, w') ->
      forall k o, bit_at w' k o = bit_at w k o
}.

(** The error of the write batch of [Add], as the caller sees it. *)
Definition set_batch_error {W : Type}
    (bf : bloomFilter W) (data : list byte) (s : Sys W) : option error :=
  match getHashPositions bf data, cfgRedisClient (config bf) with
  | Some positions, Some client =>
      match Pipeline client with
      | None => Some ErrNilRedisClient
      | Some pipe => snd (fst (Exec pipe (set_batch bf positions) (world s)))
      end
  | _, _ => None
  end.

(** The replies and the error of the read batch of [Exists]. *)
Definition get_batch_result {W : Type}
    (bf : bloomFilter W) (data : list byte) (s : Sys W)
  : option (list Z * option error) :=
  match getHashPositions bf data, cfgRedisClient (config bf) with
  | Some positions, Some client =>
      match Pipeline client with
      | None => None
      | Some pipe => Some (fst (Exec pipe (get_batch bf positions) (world s)))
      end
  | _, _ => None
  end.

(** The bits a write batch for [positions] names. *)
Definition targeted {W : Type}
    (bf : bloomFilter W) (positions : list Z) (k : string) (o : Z) : bool :=
  String.eqb k (RedisKey (config bf))
  && existsb (fun pos => o =? int64 pos) positions.

(** The same handle with another expiry. *)
Definition with_TTL {W : Type} (bf : bloomFilter W) (ttl : Z) : bloomFilter W :=
  {| config :=
       {| RedisKey := RedisKey (config bf);
          cfgRedisClient := cfgRedisClient (config bf);
          ExpectedInsertions := ExpectedInsertions (config bf);
          FalsePositiveRate := FalsePositiveRate (config bf);
          TTL := ttl;
          cfgHashStrategy := cfgHashStrategy (config bf) |};
     bitSize := bitSize bf;
     hashCount := hashCount bf;
     hashStrategy := hashStrategy bf |}.

(** ** The loops of the example program

    [exampleSingleNode] adds every element of a slice and then queries
    every element; a call that fails is logged and the loop goes on. *)

(** [for _, email := range emails { if err := bf.Add([]byte(email)); ... }];
    the error of every call is kept, in order. *)
Fixpoint add_each {W : Type} (bf : bloomFilter W)
    (elements : list (list byte)) (s : Sys W)
  : Outcome W (list (option error)) :=
  match elements with
  | [] => Return [] s
  | data :: rest =>
      match Add bf data s with
      | Panic => Panic
      | Return err s1 =>
          match add_each bf rest s1 with
          | Panic => Panic
          | Return errs s2 => Return (err :: errs) s2
          end
      end
  end.

(** [for _, email := range emails { exists, err := bf.Exists([]byte(email));
    ... }]; the answer of every call is kept, in order. *)
Fixpoint check_each {W : Type} (bf : bloomFilter W)
    (elements : list (list byte)) (s : Sys W)
  : Outcome W (list (bool * option error)) :=
  match elements with
  | [] => Return [] s
  | data :: rest =>
      match Exists bf data s with
      | Panic => Panic
      | Return answer s1 =>
          match check_each bf rest s1 with
          | Panic => Panic
          | Return answers s2 => Return (answer :: answers) s2
          end
      end
  end.

(** Every position of [data] is set in the bit array [bits]. *)
Definition all_positions_set {W : Type}
    (bf : bloomFilter W) (data : list byte) (bits : Bits) : Prop :=
  exists positions,
    getHashPositions bf data = Some positions /\
    forall pos, In pos positions ->
      bits (RedisKey (config bf)) (int64 pos) = true.

(** ** An in-memory store

    A store that keeps every key as an integer whose binary digits are the
    bits of the value, refuses what a Redis server refuses, and fails the
    network exchanges its schedule tells it to.  It serves as the instance
    of the contract on which the engine is run. *)

Module MemRedis.

(** What happens to one network exchange: it goes through, or the
    connection breaks after the first [applied] commands. *)
Inductive Fault : Type :=
  | Healthy
  | Broken (applied : nat) (msg : string).

Record Redis : Type := mkRedis {
  keyspace : gmap string Z;
  expiry : gmap string Z;
  schedule : list Fault
}.

Definition value_of (ks : gmap string Z) (key : string) : Z :=
  default 0 (ks !! key).

(** The bits of the stored values. *)
Definition bits_of (ks : gmap string Z) : Bits :=
  fun k o => Z.testbit (value_of ks k) o.

Definition bit_at (r : Redis) : Bits := bits_of (keyspace r).

(** Bit offsets are limited to [0 .. 2^32 - 1]. *)
Definition offset_ok (o : Z) : bool := (0 <=? o) && (o <? two32).

Definition range_error : error :=
  StoreError "ERR bit offset is not an integer or out of range".

Definition value_error : error :=
  StoreError "ERR bit is not an integer or out of range".

Definition run_cmd (c : Cmd) (ks : gmap string Z)
  : (Z * option error) * gmap string Z :=
  match c with
  | SetBit key o v =>
      if negb (offset_ok o) then ((0, Some range_error), ks)
      else if negb ((v =? 0) || (v =? 1)) then ((0, Some value_error), ks)
      else
        let old := value_of ks key in
        let new := if v =? 0 then Z.clearbit old o else Z.setbit old o in
        ((bit_reply (Z.testbit old o), None), <[key := new]> ks)
  | GetBit key o =>
      if negb (offset_ok o) then ((0, Some range_error), ks)
      else ((bit_reply (Z.testbit (value_of ks key) o), None), ks)
  end.

Fixpoint run_cmds (cmds : list Cmd) (ks : gmap string Z)
  : list (Z * option error) * gmap string Z :=
  match cmds with
  | [] => ([], ks)
  | c :: rest =>
      let '(r, ks1) := run_cmd c ks in
      let '(rs, ks2) := run_cmds rest ks1 in
      (r :: rs, ks2)
  end.

(** A pipeline reports the first error among its commands. *)
Fixpoint first_error (rs : list (Z * option error)) : option error :=
  match rs with
  | [] => None
  | (_, Some e) :: _ => Some e
  | (_, None) :: rest => first_error rest
  end.

Definition next_fault (r : Redis) : Fault * list Fault :=
  match schedule r with
  | [] => (Healthy, [])
  | f :: rest => (f, rest)
  end.

Definition exec (cmds : list Cmd) (r : Redis)
  : (list Z * option error) * Redis :=
  let '(f, rest) := next_fault r in
  match f with
  | Healthy =>
      let '(rs, ks) := run_cmds cmds (keyspace r) in
      ((map fst rs, first_error rs), mkRedis ks (expiry r) rest)
  | Broken n msg =>
      let '(rs, ks) := run_cmds (firstn n cmds) (keyspace r) in
      ((map fst rs, Some (StoreError msg)), mkRedis ks (expiry r) rest)
  end.

Definition expire (key : string) (ttl : Z) (r : Redis)
  : option error * Redis :=
  let '(f, rest) := next_fault r in
  match f with
  | Healthy => (None, mkRedis (keyspace r) (<[key := ttl]> (expiry r)) rest)
  | Broken _ msg =>
      (Some (StoreError msg), mkRedis (keyspace r) (expiry r) rest)
  end.

Definition pipe : pipeliner Redis := mkPipeliner exec.

Definition cmdable : Cmdable Redis := mkCmdable (Some pipe) expire.

(** The client the package ships. *)
Definition adapter : RedisClient Redis := NewRedisAdapter Redis cmdable.

(** A client written by hand against the interface. *)
Definition handwritten : RedisClient Redis := OtherClient (Some pipe).

(** A client whose [Pipeline()] yields nil. *)
Definition pipeless : RedisClient Redis := OtherClient None.

Definition test_config (client : RedisClient Redis) (ttl : Z)
  : Config Redis :=
  mkConfig "integration:test:basic" (Some client) 1000 0x1.47ae147ae147bp-7%float ttl
    (Some NewFNVStrategy).

(** A handle with the reference parameters for a thousand insertions at
    one percent: 9586 bits and 7 rounds. *)
Definition test_filter (client : RedisClient Redis) (ttl : Z)
  : bloomFilter Redis :=
  mkBloomFilter (test_config client ttl) 9586 7 NewFNVStrategy.

Definition boot (faults : list Fault) : Sys Redis :=
  mkSys (mkRedis ∅ ∅ faults) [].

Definition bytes_of (s : string) : list byte := String.list_byte_of_string s.

Definition test_data : list byte := bytes_of "integration_test_data".

Definition other_data : list byte := bytes_of "integration_unseen_element_0".

(** Two seconds, in nanoseconds as [time.Duration] counts. *)
Definition two_seconds : Z := 2000000000.

(** The state a call leaves, when it returns. *)
Definition state_after {A : Type} (o : Outcome Redis A) (otherwise : Sys Redis)
  : Sys Redis :=
  match o with
  | Return _ s => s
  | Panic => otherwise
  end.

Definition after_Add (bf : bloomFilter Redis) (data : list byte) (s : Sys Redis)
  : Sys Redis :=
  state_after (Add bf data s) s.

Definition after_Exists (bf : bloomFilter Redis) (data : list byte)
    (s : Sys Redis) : Sys Redis :=
  state_after (Exists bf data s) s.

End MemRedis.

(** ** Data of the example program and degenerate handles *)

Module Example.

Import MemRedis.

(** The slice [emails] of [exampleSingleNode]. *)
Definition emails : list (list byte) :=
  [ bytes_of "user1@example.com";
    bytes_of "user2@example.com";
    bytes_of "user3@example.com" ].

(** A handle for the key and the expiry of [exampleSingleNode] (24 hours)
    on the in-memory store, with the FNV strategy, sized for a thousand
    insertions at one percent: 9586 bits and 7 rounds. *)
Definition email_filter : bloomFilter Redis :=
  mkBloomFilter
    (mkConfig "user:emails:single" (Some adapter) 1000
       0x1.47ae147ae147bp-7%float 86400000000000 (Some NewFNVStrategy))
    9586 7 NewFNVStrategy.

(** What a call returns, when it returns. *)
Definition result_of {A : Type} (o : Outcome Redis A) (otherwise : A) : A :=
  match o with
  | Return a _ => a
  | Panic => otherwise
  end.

(** The positions of an element, or none when the computation panics. *)
Definition positions_of (bf : bloomFilter Redis) (data : list byte) : list Z :=
  match getHashPositions bf data with
  | Some positions => positions
  | None => []
  end.

(** A handle under another key of the same store, as the example of the
    hash strategies builds one per strategy. *)
Definition other_key_filter : bloomFilter Redis :=
  mkBloomFilter
    (mkConfig "hash:test:FNV" (Some adapter) 10000
       0x1.47ae147ae147bp-7%float 0 (Some NewFNVStrategy))
    95851 7 NewFNVStrategy.

(** A handle with a power of two as size: 8192 bits and 7 rounds. *)
Definition power_filter : bloomFilter Redis :=
  mkBloomFilter (test_config adapter 0) 8192 7 NewFNVStrategy.

(** A handle without bits, which no constructor call with a proper rate
    is meant to give. *)
Definition zero_filter : bloomFilter Redis :=
  mkBloomFilter (test_config adapter 0) 0 7 NewFNVStrategy.

(** A runtime for the parameter calculation that stands for nothing: it
    serves where the result of the calculation does not matter. *)
Definition idle_float (x : float) : float := x.
Definition idle_of_uint64 (n : Z) : float := 0%float.
Definition idle_to_uint (x : float) : Z := 0.
Definition idle_digest (bs : list byte) : Z := 0.

(** The constructor on that runtime. *)
Definition idle_New : Config Redis -> Result (bloomFilter Redis) :=
  NewBloomFilter idle_float idle_float idle_of_uint64 idle_to_uint
    idle_to_uint idle_digest.


End Example.

(** ** The bounds of the rate check in the IEEE 754 model *)

(** [0] and [1] as [float64] values. *)
Definition SF_zero : spec_float := S754_zero false.

Definition SF_one : spec_float := S754_finite false 4503599627370496 (-52).

(** * Properties *)

(** ** Machine integers *)

Lemma u64_range z : 0 <= u64 z < two64.
Proof. unfold u64, two64. apply Z.mod_pos_bound. lia. Qed.

Lemma u64_small z : 0 <= z < two64 -> u64 z = z.
Proof. intros H. unfold u64. now apply Z.mod_small. Qed.

Lemma u64_add_idemp a b : u64 (a + u64 b) = u64 (a + b).
Proof. unfold u64, two64. apply Z.add_mod_idemp_r. lia. Qed.

Lemma int64_inj a b :
  0 <= a < two64 -> 0 <= b < two64 -> int64 a = int64 b -> a = b.
Proof.
  unfold int64, two64, two63. intros Ha Hb.
  destruct (a <? 2 ^ 63) eqn:Ea, (b <? 2 ^ 63) eqn:Eb;
    rewrite ?Z.ltb_lt, ?Z.ltb_ge in *; lia.
Qed.

(** ** The FNV strategy on the published test vectors of FNV-1a *)

Example fnv1a_empty : FNV.Sum64 (FNV.Write FNV.New64a []) = 0xcbf29ce484222325.
Proof. reflexivity. Qed.

Example fnv1a_a :
  FNV.Sum64 (FNV.Write FNV.New64a (MemRedis.bytes_of "a")) = 0xaf63dc4c8601ec8c.
Proof. vm_compute. reflexivity. Qed.

Example fnv1a_foobar :
  FNV.Sum64 (FNV.Write FNV.New64a (MemRedis.bytes_of "foobar"))
  = 0x85944171f73967e8.
Proof. vm_compute. reflexivity. Qed.

Lemma FNV_step_range h b : 0 <= FNV.step h b < two64.
Proof. apply u64_range. Qed.

(** ** Position generation *)

Lemma force_odd_is_odd h2 : Z.odd (force_odd h2) = true.
Proof.
  unfold force_odd.
  destruct (h2 mod 2 =? 0) eqn:E.
  - apply Z.eqb_eq in E. apply Z.odd_spec.
    exists (h2 / 2 - 9223372036854775808 * ((h2 + 1) / 18446744073709551616)).
    unfold u64, two64. change (2 ^ 64) with 18446744073709551616.
    Z.div_mod_to_equations. lia.
  - apply Z.eqb_neq in E. apply Z.odd_spec.
    exists (h2 / 2). Z.div_mod_to_equations. lia.
Qed.

Lemma fill_positions_unfold n i h1 h2 m :
  m <> 0 ->
  fill_positions n i h1 h2 m
  = Some (map (fun j => position h1 h2 m (i + Z.of_nat j)) (seq 0 n)).
Proof.
  intros Hm. revert i.
  induction n as [|n IH]; intros i; simpl; [reflexivity|].
  apply Z.eqb_neq in Hm. rewrite Hm.
  rewrite IH, <- seq_shift, map_map.
  f_equal. f_equal.
  - f_equal. lia.
  - apply map_ext. intros j. f_equal. lia.
Qed.

Lemma fill_positions_length n i h1 h2 m positions :
  fill_positions n i h1 h2 m = Some positions -> length positions = n.
Proof.
  revert i positions.
  induction n as [|n IH]; intros i positions; simpl.
  - intros [= <-]. reflexivity.
  - destruct (m =? 0); [discriminate|].
    destruct (fill_positions n (i + 1) h1 h2 m) as [rest|] eqn:E; [|discriminate].
    intros [= <-]. simpl. f_equal. eapply IH, E.
Qed.

Lemma position_range h1 h2 m i : 1 <= m -> 0 <= position h1 h2 m i < m.
Proof. intros Hm. unfold position. apply Z.mod_pos_bound. lia. Qed.

Lemma position_formula h1 h2 m i :
  position h1 h2 m i = ((h1 + i * h2) mod 2 ^ 64) mod m.
Proof. unfold position. rewrite u64_add_idemp. reflexivity. Qed.

Section PositionFacts.

Context {W : Type}.
Implicit Types (bf : bloomFilter W) (data : list byte).

Lemma make_uint64s_Some n :
  n * 8 <= maxAlloc -> make_uint64s n = Some (Z.to_nat n).
Proof.
  intros Hn. unfold make_uint64s.
  apply Z.leb_le in Hn. now rewrite Hn.
Qed.


(** Positions come back only when the slice was allocated; the loop then
    ran on it. *)
Lemma getHashPositions_allocated bf data positions :
  getHashPositions bf data = Some positions ->
  hashCount bf * 8 <= maxAlloc /\
  fill_positions (Z.to_nat (hashCount bf)) 0
    (Hash (hashStrategy bf) data 0)
    (force_odd (Hash (hashStrategy bf) data 1)) (bitSize bf)
  = Some positions.
Proof.
  unfold getHashPositions, make_uint64s.
  destruct (hashCount bf * 8 <=? maxAlloc) eqn:E; [|discriminate].
  apply Z.leb_le in E. intros H. split; [exact E|exact H].
Qed.


Lemma getHashPositions_length bf data positions :
  getHashPositions bf data = Some positions ->
  length positions = Z.to_nat (hashCount bf).
Proof.
  intros Hp. apply getHashPositions_allocated in Hp as [_ Hp].
  eapply fill_positions_length, Hp.
Qed.

(** The two ways to panic: the remainder by a zero [bitSize], and a slice
    the runtime does not allocate. *)
Lemma getHashPositions_panics bf data :
  1 <= hashCount bf -> bitSize bf = 0 -> getHashPositions bf data = None.
Proof.
  intros Hk Hm. unfold getHashPositions.
  destruct (make_uint64s (hashCount bf)) as [len|]; [|reflexivity].
  destruct (Z.to_nat (hashCount bf)) as [|k] eqn:E; [lia|].
  simpl. rewrite Hm. reflexivity.
Qed.



End PositionFacts.


Example getHashPositions_test_data :
  getHashPositions (MemRedis.test_filter MemRedis.adapter 0) MemRedis.test_data
  = Some [6925; 2042; 6745; 6280; 1397; 6100; 5635].
Proof. vm_compute. reflexivity. Qed.


(** ** The engine against any store *)

Section EngineFacts.

Context {W : Type}.
Implicit Types (bf : bloomFilter W) (data : list byte) (s : Sys W).
Implicit Types (client : RedisClient W) (pipe : pipeliner W).

Lemma Vals_full (replies : list Z) : Vals (length replies) replies = replies.
Proof.
  unfold Vals. induction replies as [|v rest IH]; simpl; [reflexivity|].
  rewrite <- seq_shift, map_map. simpl. now rewrite IH.
Qed.

Lemma Vals_length n (replies : list Z) : length (Vals n replies) = n.
Proof. unfold Vals. now rewrite length_map, length_seq. Qed.

Lemma all_set_true (vals : list Z) :
  all_set vals = true <-> Forall (fun v => v <> 0) vals.
Proof.
  induction vals as [|v rest IH]; simpl.
  - split; [constructor | reflexivity].
  - destruct (v =? 0) eqn:E.
    + apply Z.eqb_eq in E. split; [discriminate|].
      intros H. inversion H; subst. congruence.
    + apply Z.eqb_neq in E. rewrite IH. split.
      * intros H. now constructor.
      * intros H. now inversion H.
Qed.

Lemma all_set_zero (vals : list Z) : In 0 vals -> all_set vals = false.
Proof.
  intros H. destruct (all_set vals) eqn:E; [|reflexivity].
  apply all_set_true in E. rewrite List.Forall_forall in E.
  now destruct (E 0 H).
Qed.

Lemma all_set_bits (vals : list Z) :
  Forall (fun v => v = 0 \/ v = 1) vals ->
  all_set vals = true <-> Forall (fun v => v = 1) vals.
Proof.
  intros Hbits. rewrite all_set_true, !List.Forall_forall.
  rewrite List.Forall_forall in Hbits.
  split; intros H v Hv; specialize (H v Hv); specialize (Hbits v Hv); lia.
Qed.

Lemma set_batch_length bf positions :
  length (set_batch bf positions) = length positions.
Proof. unfold set_batch. apply length_map. Qed.

Lemma get_batch_length bf positions :
  length (get_batch bf positions) = length positions.
Proof. unfold get_batch. apply length_map. Qed.

(** [Add] and [Exists] once the positions are known and the pipeline is
    there. *)
Lemma Add_unfold bf data s positions client pipe replies err w1 :
  getHashPositions bf data = Some positions ->
  cfgRedisClient (config bf) = Some client ->
  Pipeline client = Some pipe ->
  Exec pipe (set_batch bf positions) (world s) = ((replies, err), w1) ->
  Add bf data s
  = let s1 := send (CallExec (set_batch bf positions)) w1 s in
    match err with
    | Some e => Return (Some e) s1
    | None =>
        if 0 <? TTL (config bf) then
          match client with
          | RedisAdapter adapter =>
              Return None
                (send (CallExpire (RedisKey (config bf)) (TTL (config bf)))
                   (snd (client_Expire adapter (RedisKey (config bf))
                           (TTL (config bf)) w1)) s1)
          | OtherClient _ => Return None s1
          end
        else Return None s1
    end.
Proof.
  intros Hp Hc Hpipe He. unfold Add. rewrite Hp, Hc, Hpipe, He. simpl.
  destruct err; [reflexivity|].
  destruct (0 <? TTL (config bf)); [|reflexivity].
  destruct client; [|reflexivity].
  now destruct (client_Expire _ _ _ _).
Qed.

Lemma Exists_unfold bf data s positions client pipe replies err w1 :
  getHashPositions bf data = Some positions ->
  cfgRedisClient (config bf) = Some client ->
  Pipeline client = Some pipe ->
  Exec pipe (get_batch bf positions) (world s) = ((replies, err), w1) ->
  Exists bf data s
  = let s1 := send (CallExec (get_batch bf positions)) w1 s in
    match err with
    | Some e => Return (false, Some e) s1
    | None => Return (all_set (Vals (length positions) replies), None) s1
    end.
Proof.
  intros Hp Hc Hpipe He. unfold Exists. rewrite Hp, Hc, Hpipe, He. simpl.
  now rewrite get_batch_length.
Qed.

(** C9. When [Pipeline()] yields a value that fails the assertion to
    [pipeliner], which presupposes that [getHashPositions] returned and the
    call got that far, [Add] and [Exists] return [ErrNilRedisClient], the
    error the constructor gives for a missing client, although the client
    itself is there; the world and the log of calls are left as they were,
    and [Exists] reports [false] next to the error. *)
Theorem nil_pipeline_is_ErrNilRedisClient bf data s client :
  cfgRedisClient (config bf) = Some client ->
  Pipeline client = None ->
  getHashPositions bf data <> None ->
  Add bf data s = Return (Some ErrNilRedisClient) s /\
  Exists bf data s = Return (false, Some ErrNilRedisClient) s /\
  forall log ceil of_u64 to_u64 to_uint xxh (cfg : Config W),
    ExpectedInsertions cfg <> 0 ->
    PrimFloat.leb (FalsePositiveRate cfg) 0 = false ->
    PrimFloat.leb 1 (FalsePositiveRate cfg) = false ->
    RedisKey cfg <> EmptyString ->
    cfgRedisClient cfg = None ->
    NewBloomFilter log ceil of_u64 to_u64 to_uint xxh cfg
    = Err ErrNilRedisClient.
Proof.
  intros Hc Hpipe Hp.
  destruct (getHashPositions bf data) as [positions|] eqn:Epos;
    [clear Hp|now destruct Hp].
  unfold Add, Exists.
  rewrite Epos, Hc, Hpipe.
  repeat split.
  intros log ceil of_u64 to_u64 to_uint xxh cfg Hn Hlo Hhi Hkey Hnil.
  unfold NewBloomFilter.
  apply Z.eqb_neq in Hn. rewrite Hn, Hlo, Hhi. simpl.
  apply String.eqb_neq in Hkey. rewrite Hkey, Hnil. reflexivity.
Qed.

(** C10. Whatever [Add] returns is the error of its write batch (or of the
    failed pipeline assertion) and nothing else: the same call on the same
    handle with any other expiry returns the same value.  An [Expire]
    reaches the store only after a successful batch and only for an expiry
    strictly above zero; with a zero or negative one the calls issued
    contain none. *)
Theorem expiry_never_decides_Add bf data s r s' :
  Add bf data s = Return r s' ->
  r = set_batch_error bf data s /\
  (forall ttl, exists s'', Add (with_TTL bf ttl) data s = Return r s'') /\
  exists calls,
    issued s' = issued s ++ calls /\
    (forall key ttl,
       In (CallExpire key ttl) calls ->
       0 < TTL (config bf) /\ r = None /\
       key = RedisKey (config bf) /\ ttl = TTL (config bf)) /\
    (TTL (config bf) <= 0 -> forall key ttl, ~ In (CallExpire key ttl) calls).
Proof.
  intros HAdd.
  destruct (getHashPositions bf data) as [positions|] eqn:Hp;
    [|unfold Add in HAdd; now rewrite Hp in HAdd].
  destruct (cfgRedisClient (config bf)) as [client|] eqn:Hc;
    [|unfold Add in HAdd; now rewrite Hp, Hc in HAdd].
  assert (Hle : forall calls,
            (forall key ttl,
               In (CallExpire key ttl) calls ->
               0 < TTL (config bf) /\ r = None /\
               key = RedisKey (config bf) /\ ttl = TTL (config bf)) ->
            TTL (config bf) <= 0 ->
            forall key ttl, ~ In (CallExpire key ttl) calls).
  { intros calls Hexp Hle key ttl Hin.
    destruct (Hexp key ttl Hin) as [Hpos _]. lia. }
  destruct (Pipeline client) as [pipe|] eqn:Hpipe.
  - destruct (Exec pipe (set_batch bf positions) (world s))
      as [[replies err] w1] eqn:He.
    assert (Hr : set_batch_error bf data s = err).
    { unfold set_batch_error. now rewrite Hp, Hc, Hpipe, He. }
    assert (Hother : forall ttl,
              Add (with_TTL bf ttl) data s
              = let s1 := send (CallExec (set_batch bf positions)) w1 s in
                match err with
                | Some e => Return (Some e) s1
                | None =>
                    if 0 <? ttl then
                      match client with
                      | RedisAdapter adapter =>
                          Return None
                            (send (CallExpire (RedisKey (config bf)) ttl)
                               (snd (client_Expire adapter
                                       (RedisKey (config bf)) ttl w1)) s1)
                      | OtherClient _ => Return None s1
                      end
                    else Return None s1
                end).
    { intros ttl.
      exact (Add_unfold (with_TTL bf ttl) data s positions client pipe
               replies err w1 Hp Hc Hpipe He). }
    rewrite (Add_unfold _ _ _ _ _ _ _ _ _ Hp Hc Hpipe He) in HAdd.
    rewrite Hr. simpl in HAdd.
    destruct err as [e|].
    + injection HAdd as <- <-.
      split; [reflexivity|]. split.
      { intros ttl. rewrite Hother. eauto. }
      exists [CallExec (set_batch bf positions)].
      assert (Hnone : forall key ttl,
                In (CallExpire key ttl) [CallExec (set_batch bf positions)] ->
                0 < TTL (config bf) /\ Some e = None /\
                key = RedisKey (config bf) /\ ttl = TTL (config bf)).
      { intros key ttl [Heq|[]]. discriminate. }
      split; [reflexivity|]. split; [exact Hnone|]. now apply Hle.
    + assert (Hany : forall ttl, exists s'' : Sys W,
                Add (with_TTL bf ttl) data s = Return None s'').
      { intros ttl. rewrite Hother. simpl.
        destruct (0 <? ttl); [|eauto]. destruct client; eauto. }
      destruct (0 <? TTL (config bf)) eqn:Httl.
      * apply Z.ltb_lt in Httl. destruct client as [adapter|other].
        -- injection HAdd as <- <-.
           split; [reflexivity|]. split; [exact Hany|].
           exists [CallExec (set_batch bf positions);
                   CallExpire (RedisKey (config bf)) (TTL (config bf))].
           split; [simpl; now rewrite <- app_assoc|].
           assert (Hexp : forall key ttl,
                     In (CallExpire key ttl)
                       [CallExec (set_batch bf positions);
                        CallExpire (RedisKey (config bf)) (TTL (config bf))] ->
                     0 < TTL (config bf) /\ @None error = None /\
                     key = RedisKey (config bf) /\ ttl = TTL (config bf)).
           { intros key ttl [Heq|[Heq|[]]]; [discriminate|].
             injection Heq as <- <-. auto. }
           split; [exact Hexp|]. now apply Hle.
        -- injection HAdd as <- <-.
           split; [reflexivity|]. split; [exact Hany|].
           exists [CallExec (set_batch bf positions)].
           assert (Hnone : forall key ttl,
                     In (CallExpire key ttl)
                       [CallExec (set_batch bf positions)] ->
                     0 < TTL (config bf) /\ @None error = None /\
                     key = RedisKey (config bf) /\ ttl = TTL (config bf)).
           { intros key ttl [Heq|[]]. discriminate. }
           split; [reflexivity|]. split; [exact Hnone|]. now apply Hle.
      * injection HAdd as <- <-.
        split; [reflexivity|]. split; [exact Hany|].
        exists [CallExec (set_batch bf positions)].
        assert (Hnone : forall key ttl,
                  In (CallExpire key ttl)
                    [CallExec (set_batch bf positions)] ->
                  0 < TTL (config bf) /\ @None error = None /\
                  key = RedisKey (config bf) /\ ttl = TTL (config bf)).
        { intros key ttl [Heq|[]]. discriminate. }
        split; [reflexivity|]. split; [exact Hnone|]. now apply Hle.
  - unfold Add in HAdd. rewrite Hp, Hc, Hpipe in HAdd.
    injection HAdd as <- <-.
    split; [unfold set_batch_error; now rewrite Hp, Hc, Hpipe|].
    split.
    { intros ttl. exists s. unfold Add.
      change (getHashPositions (with_TTL bf ttl) data)
        with (getHashPositions bf data).
      change (cfgRedisClient (config (with_TTL bf ttl)))
        with (cfgRedisClient (config bf)).
      now rewrite Hp, Hc, Hpipe. }
    exists []. rewrite app_nil_r.
    split; [reflexivity|]. split; [intros key ttl []|intros _ key ttl []].
Qed.

(** *** Batches on the reference bit array *)

Lemma batch_bits_set_batch bf positions (bits : Bits) k o :
  batch_bits (set_batch bf positions) bits k o
  = targeted bf positions k o || bits k o.
Proof.
  unfold targeted. revert bits.
  induction positions as [|pos rest IH]; intros bits; simpl.
  - now rewrite andb_false_r.
  - rewrite IH. unfold write_bit.
    destruct (String.eqb k (RedisKey (config bf))); simpl; [|reflexivity].
    destruct (o =? int64 pos); simpl; [|reflexivity].
    now rewrite orb_true_r.
Qed.

Lemma batch_bits_get_batch bf positions (bits : Bits) :
  batch_bits (get_batch bf positions) bits = bits.
Proof. induction positions as [|pos rest IH]; simpl; [reflexivity|exact IH]. Qed.

Lemma batch_replies_get_batch bf positions (bits : Bits) :
  batch_replies (get_batch bf positions) bits
  = map (fun pos => bit_reply (bits (RedisKey (config bf)) (int64 pos)))
      positions.
Proof.
  induction positions as [|pos rest IH]; simpl; [reflexivity|].
  now rewrite IH.
Qed.

Lemma targeted_position bf positions pos :
  In pos positions ->
  targeted bf positions (RedisKey (config bf)) (int64 pos) = true.
Proof.
  intros Hin. unfold targeted. rewrite String.eqb_refl. simpl.
  apply existsb_exists. exists pos. split; [exact Hin|apply Z.eqb_refl].
Qed.

Lemma targeted_command bf positions k o v :
  In (SetBit k o v) (set_batch bf positions) ->
  targeted bf positions k o = true /\ v = 1.
Proof.
  unfold set_batch. intros Hin.
  apply in_map_iff in Hin as (pos & [= <- <- <-] & Hpos).
  split; [now apply targeted_position|reflexivity].
Qed.

(** *** What a successful [Add] leaves behind *)

Lemma Add_success bf data s s1 :
  Add bf data s = Return None s1 ->
  exists positions client pipe replies w1,
    getHashPositions bf data = Some positions /\
    cfgRedisClient (config bf) = Some client /\
    Pipeline client = Some pipe /\
    Exec pipe (set_batch bf positions) (world s) = ((replies, None), w1) /\
    (world s1 = w1 \/
     exists adapter,
       client = RedisAdapter adapter /\ 0 < TTL (config bf) /\
       world s1 = snd (client_Expire adapter (RedisKey (config bf))
                         (TTL (config bf)) w1)).
Proof.
  intros HAdd.
  destruct (getHashPositions bf data) as [positions|] eqn:Hp;
    [|unfold Add in HAdd; now rewrite Hp in HAdd].
  destruct (cfgRedisClient (config bf)) as [client|] eqn:Hc;
    [|unfold Add in HAdd; now rewrite Hp, Hc in HAdd].
  destruct (Pipeline client) as [pipe|] eqn:Hpipe;
    [|unfold Add in HAdd; now rewrite Hp, Hc, Hpipe in HAdd].
  destruct (Exec pipe (set_batch bf positions) (world s))
    as [[replies err] w1] eqn:He.
  rewrite (Add_unfold _ _ _ _ _ _ _ _ _ Hp Hc Hpipe He) in HAdd.
  simpl in HAdd. destruct err as [e|]; [discriminate|].
  exists positions, client, pipe, replies, w1.
  repeat (split; [reflexivity || assumption|]).
  destruct (0 <? TTL (config bf)) eqn:Httl.
  - apply Z.ltb_lt in Httl. destruct client as [adapter|other].
    + injection HAdd as <-. right. exists adapter. auto.
    + injection HAdd as <-. now left.
  - injection HAdd as <-. now left.
Qed.

Lemma all_set_Vals n (replies : list Z) :
  all_set (Vals n replies) = true <->
  forall i, (i < n)%nat -> nth i replies 0 <> 0.
Proof.
  rewrite all_set_true, List.Forall_forall. unfold Vals. split.
  - intros H i Hi. apply H. apply in_map_iff.
    exists i. split; [reflexivity|]. apply in_seq. lia.
  - intros H v Hv. apply in_map_iff in Hv as (i & <- & Hi).
    apply in_seq in Hi. apply H. lia.
Qed.

(** C2. [Exists] queues one [GetBit] per position of the element, in
    order, and sends them as one batch.  When the batch comes back without
    error, the result is present exactly when none of the [hashCount]
    replies is zero, that is, the replies being bits, exactly when every
    one of them is 1, and absent as soon as one of them is 0; with a store
    that honours the contract the replies are the bits stored at the
    positions, so that present means that all of them are set.  When the
    batch fails, [Exists] hands that error to the caller together with
    [false], so that a failed query never looks like "absent". *)
Theorem Exists_result_semantics
    bf data s positions client pipe replies err w1 :
  getHashPositions bf data = Some positions ->
  cfgRedisClient (config bf) = Some client ->
  Pipeline client = Some pipe ->
  let key := RedisKey (config bf) in
  let batch := map (fun pos => GetBit key (int64 pos)) positions in
  Exec pipe batch (world s) = ((replies, err), w1) ->
  exists present,
    Exists bf data s
    = Return (present, err)
        {| world := w1; issued := issued s ++ [CallExec batch] |} /\
    length batch = Z.to_nat (hashCount bf) /\
    match err with
    | Some _ => present = false
    | None =>
        (present = true <->
         forall i, (i < length positions)%nat -> nth i replies 0 <> 0) /\
        ((forall i, (i < length positions)%nat ->
            nth i replies 0 = 0 \/ nth i replies 0 = 1) ->
         present = true <->
         forall i, (i < length positions)%nat -> nth i replies 0 = 1) /\
        (forall i, (i < length positions)%nat ->
           nth i replies 0 = 0 -> present = false) /\
        (forall bit_at : W -> Bits,
           StoreContract bit_at client ->
           replies
           = map (fun pos =>
                    if bit_at (world s) key (int64 pos) then 1 else 0)
               positions /\
           (present = true <->
            forall pos,
              In pos positions -> bit_at (world s) key (int64 pos) = true))
    end.
Proof.
  intros Hp Hc Hpipe key batch He.
  rewrite (Exists_unfold _ _ _ _ _ _ _ _ _ Hp Hc Hpipe He). simpl.
  assert (Hlen : length batch = Z.to_nat (hashCount bf)).
  { unfold batch. rewrite length_map. apply (getHashPositions_length _ _ _ Hp). }
  destruct err as [e|].
  - exists false. split; [reflexivity|]. split; [exact Hlen|reflexivity].
  - exists (all_set (Vals (length positions) replies)).
    split; [reflexivity|]. split; [exact Hlen|].
    pose proof (all_set_Vals (length positions) replies) as Hall.
    split; [exact Hall|]. split; [|split].
    + intros Hbits. rewrite Hall.
      split; intros H i Hi; specialize (H i Hi); specialize (Hbits i Hi); lia.
    + intros i Hi Hzero.
      destruct (all_set (Vals (length positions) replies)) eqn:E;
        [|reflexivity].
      destruct Hall as [Hall _]. now destruct (Hall eq_refl i Hi).
    + intros bit_at HK.
      destruct (exec_done _ _ HK _ _ _ _ _ Hpipe He) as [Hr _].
      change batch with (get_batch bf positions) in Hr.
      rewrite batch_replies_get_batch in Hr. fold key in Hr.
      unfold bit_reply in Hr.
      split; [exact Hr|].
      rewrite Hall, Hr. split.
      * intros H pos Hpos.
        destruct (In_nth _ _ 0 Hpos) as (i & Hi & Hnth).
        specialize (H i Hi).
        set (f := fun pos => if bit_at (world s) key (int64 pos) then 1 else 0)
          in H.
        rewrite nth_indep with (d' := f 0) in H by now rewrite length_map.
        rewrite map_nth, Hnth in H. unfold f in H.
        now destruct (bit_at (world s) key (int64 pos)).
      * intros H i Hi.
        set (f := fun pos => if bit_at (world s) key (int64 pos) then 1 else 0).
        rewrite nth_indep with (d' := f 0) by now rewrite length_map.
        rewrite map_nth. unfold f.
        rewrite (H (nth i positions 0)) by now apply nth_In.
        discriminate.
Qed.

Section WithContract.

Variable bit_at : W -> Bits.

Lemma Add_sets_positions bf data s s1 client :
  cfgRedisClient (config bf) = Some client ->
  StoreContract bit_at client ->
  Add bf data s = Return None s1 ->
  exists positions,
    getHashPositions bf data = Some positions /\
    forall k o,
      bit_at (world s1) k o = targeted bf positions k o || bit_at (world s) k o.
Proof.
  intros Hc HK HAdd.
  destruct (Add_success _ _ _ _ HAdd)
    as (positions & client' & pipe & replies & w1 & Hp & Hc' & Hpipe & He & Hw).
  rewrite Hc in Hc'. injection Hc' as <-.
  exists positions. split; [exact Hp|]. intros k o.
  destruct (exec_done _ _ HK _ _ _ _ _ Hpipe He) as [_ Hbits].
  rewrite <- batch_bits_set_batch, <- Hbits.
  destruct Hw as [->|(adapter & Hcl & Httl & ->)]; [reflexivity|].
  destruct (client_Expire adapter (RedisKey (config bf)) (TTL (config bf)) w1)
    as [out w2] eqn:Hexp.
  exact (expire_keeps _ _ HK _ _ _ _ _ _ Hcl Httl Hexp k o).
Qed.

(** With a store that honours the contract, the bits read are the bits
    stored at the positions: a query that is answered says present exactly
    when all of them are set. *)
Lemma Exists_reads_store_bits bf data s client positions present s' :
  cfgRedisClient (config bf) = Some client ->
  StoreContract bit_at client ->
  getHashPositions bf data = Some positions ->
  Exists bf data s = Return (present, None) s' ->
  present = true <->
  forall pos,
    In pos positions ->
    bit_at (world s) (RedisKey (config bf)) (int64 pos) = true.
Proof.
  intros Hc HK Hp HE.
  destruct (Pipeline client) as [pipe|] eqn:Hpipe;
    [|unfold Exists in HE; now rewrite Hp, Hc, Hpipe in HE].
  destruct (Exec pipe (get_batch bf positions) (world s))
    as [[replies err] w1] eqn:He.
  rewrite (Exists_unfold _ _ _ _ _ _ _ _ _ Hp Hc Hpipe He) in HE.
  simpl in HE. destruct err as [e|]; [discriminate|].
  injection HE as <- _.
  destruct (exec_done _ _ HK _ _ _ _ _ Hpipe He) as [-> _].
  rewrite batch_replies_get_batch.
  rewrite <- (length_map
                (fun pos => bit_reply (bit_at (world s) (RedisKey (config bf))
                                         (int64 pos))) positions).
  rewrite Vals_full, all_set_true, Forall_map, List.Forall_forall.
  split; intros H pos Hpos; specialize (H pos Hpos).
  - now destruct (bit_at (world s) (RedisKey (config bf)) (int64 pos)).
  - now rewrite H.
Qed.

(** C1, amended. After an [Add] that returned no error, in any later state
    that still has every bit of the key that was set when [Add] returned,
    [Exists] on the same handle and element does not panic and returns the
    error of its own read batch: when that batch was executed the answer is
    present with no error, and otherwise absent is reported only together
    with the batch's error. *)
Theorem no_false_negatives bf data s0 s1 s2 client :
  cfgRedisClient (config bf) = Some client ->
  StoreContract bit_at client ->
  Add bf data s0 = Return None s1 ->
  (forall o,
     bit_at (world s1) (RedisKey (config bf)) o = true ->
     bit_at (world s2) (RedisKey (config bf)) o = true) ->
  exists replies err s3,
    get_batch_result bf data s2 = Some (replies, err) /\
    Exists bf data s2
    = Return (match err with None => true | Some _ => false end, err) s3.
Proof.
  intros Hc HK HAdd Hkept.
  destruct (Add_sets_positions _ _ _ _ _ Hc HK HAdd)
    as (positions & Hp & Hbits).
  destruct (Add_success _ _ _ _ HAdd)
    as (positions' & client' & pipe & _ & _ & Hp' & Hc' & Hpipe & _).
  rewrite Hc in Hc'. injection Hc' as <-. clear positions' Hp'.
  destruct (Exec pipe (get_batch bf positions) (world s2))
    as [[replies err] w3] eqn:He.
  exists replies, err, (send (CallExec (get_batch bf positions)) w3 s2).
  split.
  { unfold get_batch_result. now rewrite Hp, Hc, Hpipe, He. }
  rewrite (Exists_unfold _ _ _ _ _ _ _ _ _ Hp Hc Hpipe He). simpl.
  destruct err as [e|]; [reflexivity|].
  destruct (exec_done _ _ HK _ _ _ _ _ Hpipe He) as [-> _].
  rewrite batch_replies_get_batch.
  rewrite <- (length_map
                (fun pos => bit_reply (bit_at (world s2) (RedisKey (config bf))
                                         (int64 pos))) positions).
  rewrite Vals_full.
  replace (all_set _) with true; [reflexivity|].
  symmetry. apply all_set_true, Forall_map, List.Forall_forall.
  intros pos Hpos.
  rewrite Hkept; [discriminate|].
  rewrite Hbits, (targeted_position _ _ _ Hpos). reflexivity.
Qed.

(** C3, amended. For a handle with an expiry above zero, an [Add] whose
    write batch went through sends one [Expire] for the key after the batch
    when the client is the adapter, and none when it is any other client.
    Whatever that [Expire] answers, failure included, [Add] returns no
    error, and the bits named in the batch are set in the state it
    leaves. *)
Theorem expiry_refresh_is_best_effort bf data s positions client pipe replies w1 :
  0 < TTL (config bf) ->
  getHashPositions bf data = Some positions ->
  cfgRedisClient (config bf) = Some client ->
  Pipeline client = Some pipe ->
  Exec pipe (set_batch bf positions) (world s) = ((replies, None), w1) ->
  let key := RedisKey (config bf) in
  let batch := CallExec (set_batch bf positions) in
  exists s1,
    Add bf data s = Return None s1 /\
    match client with
    | RedisAdapter adapter =>
        forall outcome w2,
          client_Expire adapter key (TTL (config bf)) w1 = (outcome, w2) ->
          s1 = mkSys w2
                 (issued s ++ [batch; CallExpire key (TTL (config bf))])
    | OtherClient _ => s1 = mkSys w1 (issued s ++ [batch])
    end /\
    (StoreContract bit_at client ->
     forall pos, In pos positions -> bit_at (world s1) key (int64 pos) = true).
Proof.
  intros Httl Hp Hc Hpipe He key batch.
  pose proof (Add_unfold _ _ _ _ _ _ _ _ _ Hp Hc Hpipe He) as HU.
  simpl in HU. apply Z.ltb_lt in Httl. rewrite Httl in HU.
  assert (Hs1 : exists s1, Add bf data s = Return None s1).
  { rewrite HU. destruct client; eauto. }
  destruct Hs1 as [s1 HAdd]. exists s1. split; [exact HAdd|]. split.
  - rewrite HU in HAdd. destruct client as [adapter|other].
    + injection HAdd as <-. intros outcome w2 Hexp.
      fold key. rewrite Hexp. unfold send. simpl.
      now rewrite <- app_assoc.
    + now injection HAdd as <-.
  - intros HK pos Hpos.
    destruct (Add_sets_positions _ _ _ _ _ Hc HK HAdd)
      as (positions' & Hp' & Hbits).
    rewrite Hp in Hp'. injection Hp' as <-.
    unfold key. rewrite Hbits, (targeted_position _ _ _ Hpos). reflexivity.
Qed.

(** C8, amended. Once an [Add] of an element has returned no error, a
    second [Add] of the same element, whatever it returns, leaves every bit
    of the store as it was; hence a query of any element that the store
    answers gives the same verdict after the second [Add] as after the
    first. *)
Theorem Add_idempotent bf data s0 s1 r s2 client :
  cfgRedisClient (config bf) = Some client ->
  StoreContract bit_at client ->
  Add bf data s0 = Return None s1 ->
  Add bf data s1 = Return r s2 ->
  (forall k o, bit_at (world s2) k o = bit_at (world s1) k o) /\
  (forall x replies1 replies2,
     get_batch_result bf x s1 = Some (replies1, None) ->
     get_batch_result bf x s2 = Some (replies2, None) ->
     replies1 = replies2 /\
     exists present t1 t2,
       Exists bf x s1 = Return (present, None) t1 /\
       Exists bf x s2 = Return (present, None) t2).
Proof.
  intros Hc HK HAdd1 HAdd2.
  destruct (Add_sets_positions _ _ _ _ _ Hc HK HAdd1)
    as (positions & Hp & Hbits1).
  destruct (Add_success _ _ _ _ HAdd1)
    as (positions' & client' & pipe & _ & _ & Hp' & Hc' & Hpipe & _).
  rewrite Hc in Hc'. injection Hc' as <-. clear positions' Hp'.
  assert (Hsame : forall k o, bit_at (world s2) k o = bit_at (world s1) k o).
  { destruct (Exec pipe (set_batch bf positions) (world s1))
      as [[replies err] w2] eqn:He.
    rewrite (Add_unfold _ _ _ _ _ _ _ _ _ Hp Hc Hpipe He) in HAdd2.
    simpl in HAdd2. destruct err as [e|].
    - injection HAdd2 as <- <-. simpl. intros k o.
      destruct (Bool.bool_dec (bit_at w2 k o) (bit_at (world s1) k o))
        as [Heq|Hne]; [exact Heq|].
      destruct (exec_failed _ _ HK _ _ _ _ _ _ Hpipe He k o Hne)
        as (v & Hin & Hv).
      destruct (targeted_command _ _ _ _ _ Hin) as [Ht ->].
      rewrite Hbits1, Ht, Hv. reflexivity.
    - destruct (exec_done _ _ HK _ _ _ _ _ Hpipe He) as [_ Hbits2].
      assert (Hw2 : forall k o, bit_at w2 k o = bit_at (world s1) k o).
      { intros k o. rewrite Hbits2, batch_bits_set_batch, Hbits1.
        now destruct (targeted bf positions k o). }
      destruct (0 <? TTL (config bf)) eqn:Httl.
      + destruct client as [adapter|other].
        * injection HAdd2 as <- <-. simpl. intros k o.
          destruct (client_Expire adapter (RedisKey (config bf))
                      (TTL (config bf)) w2) as [out w3] eqn:Hexp.
          apply Z.ltb_lt in Httl. simpl.
          rewrite (expire_keeps _ _ HK _ _ _ _ _ _ eq_refl Httl Hexp k o).
          apply Hw2.
        * injection HAdd2 as <- <-. exact Hw2.
      + injection HAdd2 as <- <-. exact Hw2. }
  split; [exact Hsame|].
  intros x replies1 replies2 H1 H2.
  unfold get_batch_result in H1, H2. rewrite Hc, Hpipe in H1, H2.
  destruct (getHashPositions bf x) as [px|] eqn:Hx; [|discriminate].
  destruct (Exec pipe (get_batch bf px) (world s1))
    as [[rep1 err1] t1] eqn:He1.
  destruct (Exec pipe (get_batch bf px) (world s2))
    as [[rep2 err2] t2] eqn:He2.
  simpl in H1, H2. injection H1 as -> ->. injection H2 as -> ->.
  destruct (exec_done _ _ HK _ _ _ _ _ Hpipe He1) as [Hr1 _].
  destruct (exec_done _ _ HK _ _ _ _ _ Hpipe He2) as [Hr2 _].
  assert (Heq : replies1 = replies2).
  { rewrite Hr1, Hr2, !batch_replies_get_batch.
    apply map_ext. intros pos. now rewrite Hsame. }
  split; [exact Heq|].
  rewrite (Exists_unfold _ _ _ _ _ _ _ _ _ Hx Hc Hpipe He1).
  rewrite (Exists_unfold _ _ _ _ _ _ _ _ _ Hx Hc Hpipe He2).
  simpl. rewrite Heq. eauto.
Qed.

End WithContract.

End EngineFacts.


(** ** The in-memory store honours the contract *)

Module MemRedisFacts.

Import MemRedis.

Lemma value_of_insert (ks : gmap string Z) key v k :
  value_of (<[key := v]> ks) k = if String.eqb k key then v else value_of ks k.
Proof.
  unfold value_of. destruct (String.eqb k key) eqn:E.
  - apply String.eqb_eq in E. subst. now rewrite lookup_insert_eq.
  - apply String.eqb_neq in E. rewrite lookup_insert_ne; congruence.
Qed.

Lemma offset_ok_nonneg o : offset_ok o = true -> 0 <= o.
Proof. unfold offset_ok. intros H. apply andb_true_iff in H. lia. Qed.

Lemma bits_of_write ks key off v k o :
  offset_ok off = true ->
  (v =? 0) || (v =? 1) = true ->
  bits_of
    (<[key := if v =? 0 then Z.clearbit (value_of ks key) off
              else Z.setbit (value_of ks key) off]> ks) k o
  = write_bit key off (negb (v =? 0)) (bits_of ks) k o.
Proof.
  intros Hoff Hv. apply offset_ok_nonneg in Hoff.
  unfold bits_of, write_bit. rewrite value_of_insert.
  destruct (String.eqb k key) eqn:Ek; simpl; [|reflexivity].
  apply String.eqb_eq in Ek. subst k.
  destruct (v =? 0); simpl.
  - rewrite Z.clearbit_eqb by exact Hoff.
    rewrite (Z.eqb_sym o off).
    destruct (off =? o); simpl; [apply andb_false_r|apply andb_true_r].
  - rewrite Z.setbit_eqb by exact Hoff.
    rewrite (Z.eqb_sym o off).
    now destruct (off =? o).
Qed.

(** A command that the server accepts does what the reference says. *)
Lemma run_cmd_accepted c ks v ks' :
  run_cmd c ks = ((v, None), ks') ->
  v = cmd_reply c (bits_of ks) /\
  forall k o, bits_of ks' k o = cmd_bits c (bits_of ks) k o.
Proof.
  destruct c as [key off val|key off]; simpl.
  - destruct (offset_ok off) eqn:Hoff; simpl; [|discriminate].
    destruct ((val =? 0) || (val =? 1)) eqn:Hval; simpl; [|discriminate].
    intros [= <- <-]. split; [reflexivity|].
    intros k o. now apply bits_of_write.
  - destruct (offset_ok off); simpl; [|discriminate].
    intros [= <- <-]. split; reflexivity.
Qed.

(** A command changes no bit but the one it writes. *)
Lemma run_cmd_changes c ks r ks' k o :
  run_cmd c ks = (r, ks') ->
  bits_of ks' k o <> bits_of ks k o ->
  exists v, c = SetBit k o v /\ bits_of ks' k o = negb (v =? 0).
Proof.
  destruct c as [key off val|key off]; simpl.
  - destruct (offset_ok off) eqn:Hoff; simpl;
      [|intros [= <- <-] Hne; now destruct Hne].
    destruct ((val =? 0) || (val =? 1)) eqn:Hval; simpl;
      [|intros [= <- <-] Hne; now destruct Hne].
    intros [= <- <-]. rewrite bits_of_write by assumption.
    unfold write_bit.
    destruct (String.eqb k key) eqn:Ek; simpl; [|intros Hne; now destruct Hne].
    destruct (o =? off) eqn:Eo; [|intros Hne; now destruct Hne].
    apply String.eqb_eq in Ek. apply Z.eqb_eq in Eo. subst.
    intros _. eauto.
  - destruct (offset_ok off); simpl; intros [= <- <-] Hne; now destruct Hne.
Qed.

Lemma cmd_bits_ext c (b1 b2 : Bits) :
  (forall k o, b1 k o = b2 k o) ->
  cmd_reply c b1 = cmd_reply c b2 /\
  forall k o, cmd_bits c b1 k o = cmd_bits c b2 k o.
Proof.
  intros H. destruct c as [key off val|key off]; simpl.
  - rewrite H. split; [reflexivity|]. intros k o. unfold write_bit.
    now rewrite H.
  - rewrite H. split; [reflexivity|exact H].
Qed.

Lemma run_cmds_accepted cmds :
  forall ks (bits : Bits) rs ks',
    (forall k o, bits_of ks k o = bits k o) ->
    run_cmds cmds ks = (rs, ks') ->
    first_error rs = None ->
    map fst rs = batch_replies cmds bits /\
    forall k o, bits_of ks' k o = batch_bits cmds bits k o.
Proof.
  induction cmds as [|c rest IH]; intros ks bits rs ks' Hbits; simpl.
  - intros [= <- <-] _. split; [reflexivity|exact Hbits].
  - destruct (run_cmd c ks) as [[v e] ks1] eqn:Hc.
    destruct (run_cmds rest ks1) as [rs1 ks2] eqn:Hrest.
    intros [= <- <-]. simpl. destruct e as [e|]; [discriminate|].
    intros Herr.
    destruct (run_cmd_accepted _ _ _ _ Hc) as [Hv Hks1].
    destruct (cmd_bits_ext c _ _ Hbits) as [Hreply Hnext].
    destruct (IH ks1 (cmd_bits c bits) rs1 ks2) as [Hrs Hks2];
      [intros k o; now rewrite Hks1, Hnext|exact Hrest|exact Herr|].
    split; [|exact Hks2]. rewrite Hv, Hreply, Hrs. reflexivity.
Qed.

Lemma run_cmds_changes cmds :
  forall ks rs ks' k o,
    run_cmds cmds ks = (rs, ks') ->
    bits_of ks' k o <> bits_of ks k o ->
    exists v, In (SetBit k o v) cmds /\ bits_of ks' k o = negb (v =? 0).
Proof.
  induction cmds as [|c rest IH]; intros ks rs ks' k o; simpl.
  - intros [= <- <-] Hne. now destruct Hne.
  - destruct (run_cmd c ks) as [r ks1] eqn:Hc.
    destruct (run_cmds rest ks1) as [rs1 ks2] eqn:Hrest.
    intros [= <- <-] Hne.
    destruct (Bool.bool_dec (bits_of ks2 k o) (bits_of ks1 k o)) as [Heq|Hne2].
    + rewrite Heq in Hne |- *.
      destruct (run_cmd_changes _ _ _ _ _ _ Hc Hne) as (v & -> & Hv).
      exists v. split; [now left|exact Hv].
    + destruct (IH _ _ _ _ _ Hrest Hne2) as (v & Hin & Hv).
      exists v. split; [now right|exact Hv].
Qed.

Lemma first_error_some rs e : first_error rs = Some e -> first_error rs <> None.
Proof. congruence. Qed.

(** Every client built on the in-memory pipeline and [expire] honours the
    contract, whatever its schedule of faults. *)
Lemma contract_of (client : RedisClient Redis) :
  (forall p, Pipeline client = Some p -> p = pipe) ->
  (forall a, client = RedisAdapter a -> a = cmdable) ->
  StoreContract bit_at client.
Proof.
  intros Hpipe Hadapter. constructor.
  - intros p cmds w replies w' Hp He.
    rewrite (Hpipe p Hp) in He. simpl in He. unfold exec in He.
    destruct (next_fault w) as [f rest].
    destruct f as [|n msg].
    + destruct (run_cmds cmds (keyspace w)) as [rs ks] eqn:Hrun.
      injection He as <- Herr <-.
      exact (run_cmds_accepted cmds _ (bit_at w) _ _
               (fun k o => eq_refl) Hrun Herr).
    + destruct (run_cmds (firstn n cmds) (keyspace w)). discriminate.
  - intros p cmds w replies e w' Hp He k o Hne.
    rewrite (Hpipe p Hp) in He. simpl in He. unfold exec in He.
    destruct (next_fault w) as [f rest].
    destruct f as [|n msg].
    + destruct (run_cmds cmds (keyspace w)) as [rs ks] eqn:Hrun.
      injection He as <- _ <-.
      exact (run_cmds_changes cmds _ _ _ k o Hrun Hne).
    + destruct (run_cmds (firstn n cmds) (keyspace w)) as [rs ks] eqn:Hrun.
      injection He as <- _ <-.
      destruct (run_cmds_changes _ _ _ _ k o Hrun Hne) as (v & Hin & Hv).
      exists v. split; [|exact Hv].
      rewrite <- (firstn_skipn n cmds). apply in_or_app. now left.
  - intros a key ttl w r w' Ha Httl Hexp k o.
    rewrite (Hadapter a Ha) in Hexp. simpl in Hexp. unfold expire in Hexp.
    destruct (next_fault w) as [f rest].
    destruct f; injection Hexp as <- <-; reflexivity.
Qed.

Lemma adapter_contract : StoreContract bit_at adapter.
Proof.
  apply contract_of.
  - intros p [= <-]. reflexivity.
  - intros a [= <-]. reflexivity.
Qed.

Lemma handwritten_contract : StoreContract bit_at handwritten.
Proof.
  apply contract_of.
  - intros p [= <-]. reflexivity.
  - intros a [=].
Qed.

End MemRedisFacts.


(** ** The engine on the in-memory store *)

Module Runs.

Import MemRedis MemRedisFacts.

Lemma no_false_negatives_witness :
  let bf := test_filter adapter two_seconds in
  let s1 := after_Add bf test_data (boot []) in
  exists replies err s3,
    get_batch_result bf test_data s1 = Some (replies, err) /\
    Exists bf test_data s1
    = Return (match err with None => true | Some _ => false end, err) s3.
Proof.
  intros bf s1.
  apply (no_false_negatives bit_at bf test_data (boot []) s1 s1 adapter).
  - reflexivity.
  - exact adapter_contract.
  - vm_compute. reflexivity.
  - intros o Ho. exact Ho.
Defined.

(** C1 as stated fails: the store honours the contract, [Add] returns no
    error, the very state it leaves is queried, so that no bit has been
    cleared, and the connection breaks during the read batch; [Exists]
    returns [false] with the error of the batch instead of [true] with no
    error. *)
Lemma no_false_negatives_needs_the_read_batch :
  let bf := test_filter adapter 0 in
  let s0 := boot [Healthy; Broken 0 "connection reset by peer"] in
  StoreContract bit_at adapter /\
  exists s1 s3,
    Add bf test_data s0 = Return None s1 /\
    Exists bf test_data s1
    = Return (false, Some (StoreError "connection reset by peer")) s3.
Proof.
  intros bf s0. split; [exact adapter_contract|].
  exists (after_Add bf test_data s0).
  exists (after_Exists bf test_data (after_Add bf test_data s0)).
  split; vm_compute; reflexivity.
Qed.

Lemma Exists_result_semantics_witness :
  let bf := test_filter adapter 0 in
  let s1 := after_Add bf test_data (boot []) in
  let positions := [6925; 2042; 6745; 6280; 1397; 6100; 5635] in
  let key := RedisKey (config bf) in
  let batch := map (fun pos => GetBit key (int64 pos)) positions in
  let replies := [1; 1; 1; 1; 1; 1; 1] in
  exists present,
    Exists bf test_data s1
    = Return (present, None)
        {| world := snd (exec batch (world s1));
           issued := issued s1 ++ [CallExec batch] |} /\
    length batch = Z.to_nat (hashCount bf) /\
    (present = true <->
     forall i, (i < length positions)%nat -> nth i replies 0 <> 0) /\
    ((forall i, (i < length positions)%nat ->
        nth i replies 0 = 0 \/ nth i replies 0 = 1) ->
     present = true <->
     forall i, (i < length positions)%nat -> nth i replies 0 = 1) /\
    (forall i, (i < length positions)%nat ->
       nth i replies 0 = 0 -> present = false) /\
    (forall bit_at : Redis -> Bits,
       StoreContract bit_at adapter ->
       replies
       = map (fun pos => if bit_at (world s1) key (int64 pos) then 1 else 0)
           positions /\
       (present = true <->
        forall pos,
          In pos positions -> bit_at (world s1) key (int64 pos) = true)).
Proof.
  intros bf s1 positions key batch replies.
  apply (Exists_result_semantics bf test_data s1 positions adapter pipe
           replies None (snd (exec batch (world s1)))).
  - vm_compute. reflexivity.
  - reflexivity.
  - reflexivity.
  - vm_compute. reflexivity.
Defined.

Lemma nil_pipeline_is_ErrNilRedisClient_witness :
  let bf := test_filter pipeless 0 in
  Add bf test_data (boot []) = Return (Some ErrNilRedisClient) (boot []) /\
  Exists bf test_data (boot [])
  = Return (false, Some ErrNilRedisClient) (boot []).
Proof.
  intros bf.
  destruct (nil_pipeline_is_ErrNilRedisClient bf test_data (boot []) pipeless)
    as (HAdd & HExists & _).
  - reflexivity.
  - reflexivity.
  - intros H. vm_compute in H. discriminate H.
  - split; [exact HAdd|exact HExists].
Defined.

Lemma expiry_never_decides_Add_witness :
  let bf := test_filter adapter 0 in
  let s := boot [] in
  None = set_batch_error bf test_data s /\
  (forall ttl, exists s'',
     Add (with_TTL bf ttl) test_data s = Return None s'') /\
  exists calls,
    issued (after_Add bf test_data s) = issued s ++ calls /\
    (forall key ttl,
       In (CallExpire key ttl) calls ->
       0 < TTL (config bf) /\ @None error = None /\
       key = RedisKey (config bf) /\ ttl = TTL (config bf)) /\
    (TTL (config bf) <= 0 -> forall key ttl, ~ In (CallExpire key ttl) calls).
Proof.
  intros bf s.
  apply (expiry_never_decides_Add bf test_data s None
           (after_Add bf test_data s)).
  vm_compute. reflexivity.
Defined.

Lemma expiry_refresh_is_best_effort_witness :
  let bf := test_filter adapter two_seconds in
  let s := boot [] in
  let positions := [6925; 2042; 6745; 6280; 1397; 6100; 5635] in
  let w1 := snd (exec (set_batch bf positions) (world s)) in
  let key := RedisKey (config bf) in
  let batch := CallExec (set_batch bf positions) in
  exists s1,
    Add bf test_data s = Return None s1 /\
    (forall outcome w2,
       expire key (TTL (config bf)) w1 = (outcome, w2) ->
       s1 = mkSys w2 (issued s ++ [batch; CallExpire key (TTL (config bf))])) /\
    (StoreContract bit_at adapter ->
     forall pos, In pos positions -> bit_at (world s1) key (int64 pos) = true).
Proof.
  intros bf s positions w1.
  apply (expiry_refresh_is_best_effort bit_at bf test_data s positions
           adapter pipe [0; 0; 0; 0; 0; 0; 0] w1).
  - vm_compute. reflexivity.
  - vm_compute. reflexivity.
  - reflexivity.
  - reflexivity.
  - vm_compute. reflexivity.
Defined.

(** C3 as stated fails twice.  With a client written by hand, an [Add]
    that succeeds on a handle with an expiry of two seconds sends the
    write batch and nothing else: no [Expire] reaches the store and no
    expiry is recorded.  With the adapter, when the [Expire] that follows
    the batch fails, [Add] still returns no error: the failure is not
    reported. *)
Lemma expiry_refresh_not_for_every_store_nor_reported :
  (let bf := test_filter handwritten two_seconds in
   exists s1 batch,
     Add bf test_data (boot []) = Return None s1 /\
     issued s1 = [CallExec batch] /\
     expiry (world s1) !! RedisKey (config bf) = None) /\
  (let bf := test_filter adapter two_seconds in
   let s0 := boot [Healthy; Broken 0 "i/o timeout"] in
   exists s1 batch w1 w2,
     Add bf test_data s0 = Return None s1 /\
     issued s1 = [CallExec batch;
                  CallExpire (RedisKey (config bf)) two_seconds] /\
     exec batch (world s0) = (([0; 0; 0; 0; 0; 0; 0], None), w1) /\
     expire (RedisKey (config bf)) two_seconds w1
     = (Some (StoreError "i/o timeout"), w2) /\
     expiry (world s1) !! RedisKey (config bf) = None).
Proof.
  split.
  - intros bf.
    exists (after_Add bf test_data (boot [])).
    exists (set_batch bf [6925; 2042; 6745; 6280; 1397; 6100; 5635]).
    repeat split; vm_compute; reflexivity.
  - intros bf s0.
    set (batch := set_batch bf [6925; 2042; 6745; 6280; 1397; 6100; 5635]).
    exists (after_Add bf test_data s0), batch.
    exists (snd (exec batch (world s0))).
    exists (world (after_Add bf test_data s0)).
    repeat split; vm_compute; reflexivity.
Qed.

Lemma Add_idempotent_witness :
  let bf := test_filter adapter two_seconds in
  let s1 := after_Add bf test_data (boot []) in
  let s2 := after_Add bf test_data s1 in
  (forall k o, bit_at (world s2) k o = bit_at (world s1) k o) /\
  (forall x replies1 replies2,
     get_batch_result bf x s1 = Some (replies1, None) ->
     get_batch_result bf x s2 = Some (replies2, None) ->
     replies1 = replies2 /\
     exists present t1 t2,
       Exists bf x s1 = Return (present, None) t1 /\
       Exists bf x s2 = Return (present, None) t2).
Proof.
  intros bf s1 s2.
  apply (Add_idempotent bit_at bf test_data (boot []) s1 None s2 adapter).
  - reflexivity.
  - exact adapter_contract.
  - vm_compute. reflexivity.
  - vm_compute. reflexivity.
Defined.

(** C8 as stated fails: the connection breaks before the first [Add] has
    written anything, the second [Add] goes through; a query of the element
    answers absent in the state after one [Add] and present in the state
    after two. *)
Lemma Add_twice_differs_after_failed_first :
  let bf := test_filter adapter 0 in
  let s0 := boot [Broken 0 "connection refused"] in
  StoreContract bit_at adapter /\
  exists s1 s2 t1 t2,
    Add bf test_data s0
    = Return (Some (StoreError "connection refused")) s1 /\
    Add bf test_data s1 = Return None s2 /\
    Exists bf test_data s1 = Return (false, None) t1 /\
    Exists bf test_data s2 = Return (true, None) t2.
Proof.
  intros bf s0. split; [exact adapter_contract|].
  set (s1 := after_Add bf test_data s0).
  set (s2 := after_Add bf test_data s1).
  exists s1, s2, (after_Exists bf test_data s1), (after_Exists bf test_data s2).
  repeat split; vm_compute; reflexivity.
Qed.

(** The scenario of the integration test [BasicAddAndExists]: absent
    before, present after, and another element still absent. *)
Example basic_add_and_exists :
  let bf := test_filter adapter 0 in
  let s1 := after_Add bf test_data (boot []) in
  (exists t, Exists bf test_data (boot []) = Return (false, None) t) /\
  Add bf test_data (boot []) = Return None s1 /\
  (exists t, Exists bf test_data s1 = Return (true, None) t) /\
  (exists t, Exists bf other_data s1 = Return (false, None) t).
Proof.
  intros bf s1. split; [|split; [|split]].
  - exists (after_Exists bf test_data (boot [])). vm_compute. reflexivity.
  - vm_compute. reflexivity.
  - exists (after_Exists bf test_data s1). vm_compute. reflexivity.
  - exists (after_Exists bf other_data s1). vm_compute. reflexivity.
Qed.

End Runs.


(** ** Construction *)

Module Construction.

(** *** The comparisons of the rate check, on the IEEE 754 model *)

Lemma Prim2SF_zero : Prim2SF 0%float = SF_zero.
Proof. reflexivity. Qed.

Lemma Prim2SF_one : Prim2SF 1%float = SF_one.
Proof. reflexivity. Qed.

Lemma SF_rate_check (x : spec_float) :
  x <> S754_nan ->
  SFleb x SF_zero || SFleb SF_one x
  = negb (SFltb SF_zero x && SFltb x SF_one).
Proof.
  intros Hnan. unfold SFleb, SFltb, SF_zero, SF_one.
  set (one := 4503599627370496%positive).
  destruct x as [s|s| |s m e]; unfold SFcompare.
  - reflexivity.
  - now destruct s.
  - now destruct Hnan.
  - destruct s; [reflexivity|].
    rewrite (Z.compare_antisym e (-52)).
    destruct (e ?= -52); try reflexivity.
    change (CompOpp Eq) with Eq. cbv iota.
    replace (Pos.compare_cont Eq one m)
      with (CompOpp (Pos.compare_cont Eq m one))
      by apply (Pos.compare_cont_antisym m one Eq).
    now destruct (Pos.compare_cont Eq m one).
Qed.

(** For every rate that is a number, or an infinity, the check of the
    constructor rejects exactly what lies outside the open interval. *)
Lemma rate_check_outside (p : float) :
  Prim2SF p <> S754_nan ->
  PrimFloat.leb p 0 || PrimFloat.leb 1 p
  = negb (PrimFloat.ltb 0 p && PrimFloat.ltb p 1).
Proof.
  intros Hnan. rewrite !leb_spec, !ltb_spec, Prim2SF_zero, Prim2SF_one.
  now apply SF_rate_check.
Qed.

(** A rate that is not a number fails both comparisons. *)
Lemma rate_check_nan (p : float) :
  Prim2SF p = S754_nan ->
  PrimFloat.leb p 0 || PrimFloat.leb 1 p = false /\
  PrimFloat.ltb 0 p && PrimFloat.ltb p 1 = false.
Proof.
  intros Hnan. rewrite !leb_spec, !ltb_spec, Hnan. split; reflexivity.
Qed.

Section Constructor.

Context {W : Type}.
Variables (math_Log math_Ceil : float -> float).
Variable float64_of_uint64 : Z -> float.
Variables (uint64_of_float64 uint_of_float64 : float -> Z).
Variable xxhash_Sum64 : list byte -> Z.

Let calculate :=
  calculateOptimalParameters math_Log math_Ceil float64_of_uint64
    uint64_of_float64 uint_of_float64.

Let New : Config W -> Result (bloomFilter W) :=
  NewBloomFilter math_Log math_Ceil float64_of_uint64
    uint64_of_float64 uint_of_float64 xxhash_Sum64.


(** The checks in the order of the source, for a rate that is not NaN. *)
Lemma NewBloomFilter_validation (cfg : Config W) :
  Prim2SF (FalsePositiveRate cfg) <> S754_nan ->
  let inside :=
    PrimFloat.ltb 0 (FalsePositiveRate cfg)
    && PrimFloat.ltb (FalsePositiveRate cfg) 1 in
  (ExpectedInsertions cfg = 0 ->
   New cfg = Err ErrInvalidExpectedInsertions) /\
  (ExpectedInsertions cfg <> 0 -> inside = false ->
   New cfg = Err ErrInvalidFalsePositiveRate) /\
  (ExpectedInsertions cfg <> 0 -> inside = true ->
   RedisKey cfg = EmptyString ->
   New cfg = Err ErrEmptyRedisKey) /\
  (ExpectedInsertions cfg <> 0 -> inside = true ->
   RedisKey cfg <> EmptyString -> cfgRedisClient cfg = None ->
   New cfg = Err ErrNilRedisClient) /\
  (ExpectedInsertions cfg <> 0 -> inside = true ->
   RedisKey cfg <> EmptyString -> cfgRedisClient cfg <> None ->
   exists bf,
     New cfg = Ok bf /\
     (bitSize bf, hashCount bf)
     = calculate (ExpectedInsertions cfg) (FalsePositiveRate cfg) /\
     RedisKey (config bf) = RedisKey cfg /\
     cfgRedisClient (config bf) = cfgRedisClient cfg /\
     TTL (config bf) = TTL cfg /\
     hashStrategy bf
     = match cfgHashStrategy cfg with
       | None => NewXXHashStrategy xxhash_Sum64
       | Some strategy => strategy
       end).
Proof.
  intros Hnan inside.
  pose proof (rate_check_outside _ Hnan) as Hrate. fold inside in Hrate.
  unfold New, NewBloomFilter. rewrite Hrate.
  repeat split.
  - intros ->. reflexivity.
  - intros Hn ->. apply Z.eqb_neq in Hn. now rewrite Hn.
  - intros Hn -> ->. apply Z.eqb_neq in Hn. now rewrite Hn.
  - intros Hn -> Hkey ->. apply Z.eqb_neq in Hn. apply String.eqb_neq in Hkey.
    now rewrite Hn, Hkey.
  - intros Hn -> Hkey Hclient.
    apply Z.eqb_neq in Hn. apply String.eqb_neq in Hkey.
    rewrite Hn, Hkey. simpl.
    destruct (cfgRedisClient cfg) as [client|]; [|now destruct Hclient].
    fold calculate.
    destruct (calculate (ExpectedInsertions cfg) (FalsePositiveRate cfg))
      as [m k] eqn:Hcalc.
    eexists. split; [reflexivity|]. simpl.
    split; [exact Hcalc|]. repeat split.
Qed.

(** C6, at the input on which the code departs from it.  A configuration
    whose rate is NaN, which is not strictly between 0 and 1, with a
    thousand expected insertions, a key and a client, passes every check:
    the constructor returns a handle and no error. *)
Theorem NewBloomFilter_accepts_NaN (client : RedisClient W) :
  let cfg :=
    mkConfig "integration:test:fpr" (Some client) 1000 nan 0 None in
  PrimFloat.ltb 0 nan && PrimFloat.ltb nan 1 = false /\
  exists bf,
    New cfg = Ok bf /\
    FalsePositiveRate (config bf) = nan /\
    (bitSize bf, hashCount bf) = calculate 1000 nan.
Proof.
  intros cfg. split; [reflexivity|].
  unfold New, NewBloomFilter, cfg. simpl.
  fold calculate. destruct (calculate 1000 nan) as [m k] eqn:Hcalc.
  eexists. split; [reflexivity|]. simpl.
  split; [reflexivity|exact Hcalc].
Qed.

End Constructor.

End Construction.


(** * Further properties of the code *)

(** ** The hash strategies *)

Module StrategyFacts.

Lemma byte_of_shift z k s :
  0 <= s <= 24 ->
  byte_of (Z.shiftr (z + two32 * k) s) = byte_of (Z.shiftr z s).
Proof.
  intros Hs. unfold byte_of.
  rewrite !Z.shiftr_div_pow2 by lia.
  assert (Hsplit : two32 = 2 ^ s * 2 ^ (32 - s)).
  { rewrite <- Z.pow_add_r by lia. unfold two32. f_equal. lia. }
  replace (z + two32 * k) with (z + (2 ^ (32 - s) * k) * 2 ^ s)
    by (rewrite Hsplit; ring).
  rewrite Z.div_add by (apply Z.pow_nonzero; lia).
  assert (Hmul : 2 ^ (32 - s) = 2 ^ (24 - s) * 256).
  { change 256 with (2 ^ 8). rewrite <- Z.pow_add_r by lia. f_equal. lia. }
  rewrite Hmul.
  replace (z / 2 ^ s + 2 ^ (24 - s) * 256 * k)
    with (z / 2 ^ s + (2 ^ (24 - s) * k) * 256) by ring.
  rewrite Z.mod_add by lia. reflexivity.
Qed.

Lemma seed_bytes_low z k : seed_bytes (z + two32 * k) = seed_bytes z.
Proof.
  unfold seed_bytes.
  rewrite <- (Z.shiftr_0_r (z + two32 * k)), <- (Z.shiftr_0_r z) at 1.
  rewrite !byte_of_shift by lia. reflexivity.
Qed.

Lemma seed_bytes_u64 z : seed_bytes (u64 z) = seed_bytes z.
Proof.
  unfold u64. rewrite Z.mod_eq by (unfold two64; lia).
  replace (z - two64 * (z / two64))
    with (z + two32 * (- two32 * (z / two64)))
    by (unfold two64, two32; ring).
  apply seed_bytes_low.
Qed.

(** All three strategies look at the low 32 bits of the round only: the
    64-bit seed of the xxhash strategy is cut to four bytes before it is
    written, as is the round of the FNV strategy, and the Murmur3 strategy
    converts the round to [uint32]. *)
Theorem strategies_read_32_bits_of_the_round
    (xxhash_Sum64 : list byte -> Z)
    (murmur3_Sum32WithSeed : list byte -> Z -> Z)
    (data : list byte) (i : Z) :
  Hash NewFNVStrategy data (i + 2 ^ 32) = Hash NewFNVStrategy data i /\
  Hash (NewXXHashStrategy xxhash_Sum64) data (i + 2 ^ 32)
  = Hash (NewXXHashStrategy xxhash_Sum64) data i /\
  Hash (NewMurmur3Strategy murmur3_Sum32WithSeed) data (i + 2 ^ 32)
  = Hash (NewMurmur3Strategy murmur3_Sum32WithSeed) data i.
Proof.
  change (2 ^ 32) with two32. simpl. repeat split.
  - unfold FNVStrategy_Hash.
    replace (i + two32) with (i + two32 * 1) by ring.
    now rewrite seed_bytes_low.
  - unfold XXHashStrategy_Hash.
    rewrite (seed_bytes_u64 ((i + two32) * _)), (seed_bytes_u64 (i * _)).
    replace ((i + two32) * 0x9e3779b185ebca87)
      with (i * 0x9e3779b185ebca87 + two32 * 0x9e3779b185ebca87) by ring.
    now rewrite seed_bytes_low.
  - unfold Murmur3Strategy_Hash.
    replace (u32 (i + two32)) with (u32 i); [reflexivity|].
    unfold u32. replace (i + two32) with (i + 1 * two32) by ring.
    symmetry. apply Z.mod_add. unfold two32. lia.
Qed.

(** *** FNV-1a is a bijection of the state for every byte written *)

Lemma byte_val_range b : 0 <= byte_val b < 256.
Proof.
  unfold byte_val. pose proof (Byte.to_N_bounded b) as H. lia.
Qed.

Lemma lxor_range n a b :
  0 <= n -> 0 <= a < 2 ^ n -> 0 <= b < 2 ^ n -> 0 <= Z.lxor a b < 2 ^ n.
Proof.
  intros Hn Ha Hb.
  destruct (Z.eq_dec n 0) as [->|Hn0].
  { change (2 ^ 0) with 1 in *.
    replace a with 0 by lia. replace b with 0 by lia.
    rewrite Z.lxor_0_r. lia. }
  assert (Hnonneg : 0 <= Z.lxor a b) by (apply Z.lxor_nonneg; lia).
  split; [exact Hnonneg|].
  destruct (Z.eq_dec (Z.lxor a b) 0) as [->|Hnz];
    [apply Z.pow_pos_nonneg; lia|].
  apply Z.log2_lt_pow2; [lia|].
  eapply Z.le_lt_trans; [apply Z.log2_lxor; lia|].
  apply Z.max_lub_lt.
  - destruct (Z.eq_dec a 0) as [->|Ha0]; [change (Z.log2 0) with 0; lia|].
    apply Z.log2_lt_pow2; lia.
  - destruct (Z.eq_dec b 0) as [->|Hb0]; [change (Z.log2 0) with 0; lia|].
    apply Z.log2_lt_pow2; lia.
Qed.

(** The inverse of the FNV prime modulo [2^64]. *)
Lemma prime64_inverse : u64 (FNV.prime64 * 0xce965057aff6957b) = 1.
Proof. reflexivity. Qed.

Lemma mul_prime64_injective x y :
  0 <= x < two64 -> 0 <= y < two64 ->
  u64 (x * FNV.prime64) = u64 (y * FNV.prime64) -> x = y.
Proof.
  intros Hx Hy H.
  assert (Hback : forall z, 0 <= z < two64 ->
            u64 (u64 (z * FNV.prime64) * 0xce965057aff6957b) = z).
  { intros z Hz. unfold u64.
    rewrite Z.mul_mod_idemp_l by (unfold two64; lia).
    rewrite <- Z.mul_assoc.
    rewrite <- Z.mul_mod_idemp_r by (unfold two64; lia).
    fold (u64 (FNV.prime64 * 0xce965057aff6957b)).
    rewrite prime64_inverse, Z.mul_1_r. now apply Z.mod_small. }
  rewrite <- (Hback x Hx), <- (Hback y Hy), H. reflexivity.
Qed.

Lemma step_injective h h' b :
  0 <= h < two64 -> 0 <= h' < two64 ->
  FNV.step h b = FNV.step h' b -> h = h'.
Proof.
  intros Hh Hh' H. unfold FNV.step in H.
  pose proof (byte_val_range b) as Hb.
  assert (Hb64 : 0 <= byte_val b < 2 ^ 64) by lia.
  apply mul_prime64_injective in H;
    [|apply (lxor_range 64); unfold two64 in *; lia
     |apply (lxor_range 64); unfold two64 in *; lia].
  assert (Hcancel : forall z,
            z = Z.lxor (Z.lxor z (byte_val b)) (byte_val b)).
  { intros z. now rewrite Z.lxor_assoc, Z.lxor_nilpotent, Z.lxor_0_r. }
  rewrite (Hcancel h), (Hcancel h'), H. reflexivity.
Qed.

Lemma Write_range h p : 0 <= h < two64 -> 0 <= FNV.Write h p < two64.
Proof.
  revert h. unfold FNV.Write.
  induction p as [|b rest IH]; intros h Hh; simpl; [exact Hh|].
  apply IH, u64_range.
Qed.

Lemma Write_injective p h h' :
  0 <= h < two64 -> 0 <= h' < two64 ->
  FNV.Write h p = FNV.Write h' p -> h = h'.
Proof.
  revert h h'. unfold FNV.Write.
  induction p as [|b rest IH]; intros h h' Hh Hh'; simpl; [easy|].
  intros H. apply IH in H; [|apply u64_range|apply u64_range].
  now apply step_injective in H.
Qed.

(** The two base hashes that [getHashPositions] asks of the FNV strategy
    are 64-bit words and differ for every element: the seeds of rounds 0
    and 1 leave different states, and every byte written afterwards maps
    different states to different states. *)
Theorem FNV_base_hashes_differ (data : list byte) :
  let h1 := Hash NewFNVStrategy data 0 in
  let h2 := Hash NewFNVStrategy data 1 in
  0 <= h1 < 2 ^ 64 /\ 0 <= h2 < 2 ^ 64 /\ h1 <> h2.
Proof.
  simpl. unfold FNVStrategy_Hash, FNV.Sum64.
  assert (H0 : 0 <= FNV.Write FNV.New64a (seed_bytes 0) < two64)
    by (vm_compute; split; [discriminate|reflexivity]).
  assert (H1 : 0 <= FNV.Write FNV.New64a (seed_bytes 1) < two64)
    by (vm_compute; split; [discriminate|reflexivity]).
  split; [now apply Write_range|]. split; [now apply Write_range|].
  intros Heq. apply Write_injective in Heq; [|exact H0|exact H1].
  vm_compute in Heq. discriminate.
Qed.

End StrategyFacts.


(** ** Positions *)

Section PositionMore.

Context {W : Type}.
Implicit Types (bf : bloomFilter W) (data : list byte) (s : Sys W).

(** On a 64-bit word the increment [h2++] cannot wrap: an even word is at
    most [2^64 - 2].  The step of the double hashing is the hash itself or
    its successor, odd, still a 64-bit word, and making it odd again
    changes nothing. *)
Theorem force_odd_never_wraps (h2 : Z) :
  0 <= h2 < 2 ^ 64 ->
  let step := force_odd h2 in
  (step = h2 \/ step = h2 + 1) /\
  0 <= step < 2 ^ 64 /\
  Z.odd step = true /\
  force_odd step = step.
Proof.
  intros Hh step.
  assert (Hodd : Z.odd step = true) by apply force_odd_is_odd.
  assert (Hcases : (step = h2 \/ step = h2 + 1) /\ 0 <= step < 2 ^ 64).
  { unfold step, force_odd. destruct (h2 mod 2 =? 0) eqn:E.
    - apply Z.eqb_eq in E.
      assert (Hlt : h2 + 1 < 2 ^ 64).
      { change (2 ^ 64) with 18446744073709551616 in *.
        Z.div_mod_to_equations. lia. }
      unfold u64, two64. rewrite Z.mod_small by lia. lia.
    - lia. }
  destruct Hcases as [Hcases Hrange].
  repeat split; try assumption; try apply Hrange.
  unfold force_odd at 1.
  replace (step mod 2 =? 0) with false; [reflexivity|].
  symmetry. apply Z.eqb_neq. rewrite Zmod_odd, Hodd. discriminate.
Qed.

Lemma getHashPositions_range bf data positions :
  0 <= bitSize bf ->
  getHashPositions bf data = Some positions ->
  forall pos, In pos positions -> 0 <= pos < bitSize bf.
Proof.
  intros Hm Hp pos Hin.
  apply getHashPositions_allocated in Hp as [_ Hp].
  destruct (Z.eq_dec (bitSize bf) 0) as [Hz|Hnz].
  - destruct (Z.to_nat (hashCount bf)) as [|n]; simpl in Hp.
    + injection Hp as <-. destruct Hin.
    + rewrite Hz in Hp. discriminate.
  - rewrite (fill_positions_unfold _ _ _ _ _ Hnz) in Hp.
    injection Hp as <-.
    apply in_map_iff in Hin as (j & <- & _). apply position_range. lia.
Qed.

(** Without bits the remainder divides by zero: on a handle whose
    [bitSize] is zero [Add] and [Exists] panic as soon as there is one
    round, before anything is asked of the client, while a handle without
    rounds computes no remainder and gets the empty list of positions. *)
Theorem zero_bitSize_panics bf data s :
  bitSize bf = 0 ->
  (1 <= hashCount bf ->
   getHashPositions bf data = None /\
   Add bf data s = Panic /\ Exists bf data s = Panic) /\
  (hashCount bf <= 0 -> getHashPositions bf data = Some []).
Proof.
  intros Hm. split.
  - intros Hk.
    pose proof (getHashPositions_panics bf data Hk Hm) as Hp.
    unfold Add, Exists. rewrite Hp. repeat split.
  - intros Hk. unfold getHashPositions.
    rewrite make_uint64s_Some by (unfold maxAlloc; lia).
    replace (Z.to_nat (hashCount bf)) with O by lia. reflexivity.
Qed.

Lemma odd_rel_prime_pow2 h j : Z.odd h = true -> 0 <= j -> Z.gcd (2 ^ j) h = 1.
Proof.
  intros Hodd Hj. rewrite Z.gcd_comm.
  apply Z.coprime_pow_r; [exact Hj|]. unfold Z.coprime.
  pose proof (Z.gcd_nonneg h 2) as Hge.
  pose proof (Z.gcd_divide_l h 2) as Hl.
  pose proof (Z.gcd_divide_r h 2) as Hr.
  apply Z.divide_pos_le in Hr; [|lia].
  assert (Hcases : Z.gcd h 2 = 0 \/ Z.gcd h 2 = 1 \/ Z.gcd h 2 = 2) by lia.
  destruct Hcases as [H0|[H1|H2]]; [|exact H1|].
  - apply Z.gcd_eq_0_r in H0. discriminate.
  - rewrite H2 in Hl. destruct Hl as [q Hq].
    rewrite Hq, Z.mul_comm, Z.odd_mul in Hodd. discriminate.
Qed.

Lemma position_pow2 h1 h2 j i :
  0 <= j <= 64 -> position h1 h2 (2 ^ j) i = (h1 + i * h2) mod 2 ^ j.
Proof.
  intros Hj. rewrite position_formula.
  apply Z.mod_mod_divide.
  exists (2 ^ (64 - j)). rewrite <- Z.pow_add_r by lia. f_equal. lia.
Qed.

Lemma position_pow2_injective h1 h2 j a b :
  0 <= j <= 64 -> Z.odd h2 = true ->
  0 <= a < 2 ^ j -> 0 <= b < 2 ^ j ->
  position h1 h2 (2 ^ j) a = position h1 h2 (2 ^ j) b -> a = b.
Proof.
  intros Hj Hodd Ha Hb Heq.
  rewrite !position_pow2 in Heq by exact Hj.
  assert (Hpos : 0 < 2 ^ j) by (apply Z.pow_pos_nonneg; lia).
  assert (Hdiv : (2 ^ j | (a - b) * h2)).
  { apply Z.mod_divide; [lia|].
    replace ((a - b) * h2) with ((h1 + a * h2) - (h1 + b * h2)) by ring.
    rewrite Zminus_mod, Heq, Z.sub_diag. apply Z.mod_0_l. lia. }
  rewrite Z.mul_comm in Hdiv.
  apply Z.gauss in Hdiv; [|apply odd_rel_prime_pow2; [exact Hodd|lia]].
  destruct Hdiv as [q Hq].
  assert (q = 0) by nia. lia.
Qed.

(** What forcing [h2] odd buys: when [bitSize] is a power of two and there
    are no more rounds than bits, the positions of an element are pairwise
    distinct, so that an insert sets exactly [hashCount] bits. *)
Theorem positions_distinct_for_power_of_two bf data j positions :
  0 <= j <= 63 ->
  bitSize bf = 2 ^ j ->
  hashCount bf <= bitSize bf ->
  getHashPositions bf data = Some positions ->
  NoDup positions /\ Z.of_nat (length positions) = Z.max 0 (hashCount bf).
Proof.
  intros Hj Hm Hk Hp.
  assert (Hpos : 0 < 2 ^ j) by (apply Z.pow_pos_nonneg; lia).
  apply getHashPositions_allocated in Hp as [_ Hp].
  rewrite fill_positions_unfold in Hp by lia.
  injection Hp as <-. split.
  - apply NoDup_fmap_2_strong; [|apply NoDup_seq].
    intros a b Ha Hb Heq.
    apply list_elem_of_In, in_seq in Ha. apply list_elem_of_In, in_seq in Hb.
    rewrite Hm in Heq.
    apply position_pow2_injective in Heq;
      [lia|lia|apply force_odd_is_odd|lia|lia].
  - rewrite length_map, length_seq. lia.
Qed.

End PositionMore.


(** ** What [Add] and [Exists] do to the store *)

Section EngineMore.

Context {W : Type}.
Implicit Types (bf : bloomFilter W) (data : list byte) (s : Sys W).
Implicit Types (client : RedisClient W) (pipe : pipeliner W).

Lemma set_batch_commands bf positions c :
  In c (set_batch bf positions) ->
  exists pos, In pos positions /\ c = SetBit (RedisKey (config bf)) (int64 pos) 1.
Proof.
  unfold set_batch. intros Hin.
  apply in_map_iff in Hin as (pos & <- & Hpos). eauto.
Qed.

Lemma get_batch_commands bf positions c :
  In c (get_batch bf positions) ->
  exists pos, In pos positions /\ c = GetBit (RedisKey (config bf)) (int64 pos).
Proof.
  unfold get_batch. intros Hin.
  apply in_map_iff in Hin as (pos & <- & Hpos). eauto.
Qed.

Lemma targeted_iff bf positions k o :
  targeted bf positions k o = true <->
  k = RedisKey (config bf) /\ exists pos, In pos positions /\ o = int64 pos.
Proof.
  unfold targeted. rewrite andb_true_iff, String.eqb_eq, existsb_exists.
  split; intros [Hk (pos & Hin & Ho)]; (split; [exact Hk|]); exists pos;
    (split; [exact Hin|]).
  - now apply Z.eqb_eq in Ho.
  - now apply Z.eqb_eq.
Qed.

(** The ways in which [Add] returns. *)
Lemma Add_cases bf data s r s' :
  Add bf data s = Return r s' ->
  exists positions client,
    getHashPositions bf data = Some positions /\
    cfgRedisClient (config bf) = Some client /\
    ((Pipeline client = None /\ r = Some ErrNilRedisClient /\ s' = s) \/
     exists pipe replies w1,
       Pipeline client = Some pipe /\
       Exec pipe (set_batch bf positions) (world s) = ((replies, r), w1) /\
       (s' = send (CallExec (set_batch bf positions)) w1 s \/
        exists adapter,
          r = None /\ 0 < TTL (config bf) /\ client = RedisAdapter adapter /\
          s' = send (CallExpire (RedisKey (config bf)) (TTL (config bf)))
                 (snd (client_Expire adapter (RedisKey (config bf))
                         (TTL (config bf)) w1))
                 (send (CallExec (set_batch bf positions)) w1 s))).
Proof.
  intros HAdd.
  destruct (getHashPositions bf data) as [positions|] eqn:Hp;
    [|unfold Add in HAdd; now rewrite Hp in HAdd].
  destruct (cfgRedisClient (config bf)) as [client|] eqn:Hc;
    [|unfold Add in HAdd; now rewrite Hp, Hc in HAdd].
  exists positions, client. split; [reflexivity|]. split; [reflexivity|].
  destruct (Pipeline client) as [pipe|] eqn:Hpipe.
  - right.
    destruct (Exec pipe (set_batch bf positions) (world s))
      as [[replies err] w1] eqn:He.
    rewrite (Add_unfold _ _ _ _ _ _ _ _ _ Hp Hc Hpipe He) in HAdd.
    simpl in HAdd. exists pipe, replies, w1.
    split; [reflexivity|].
    destruct err as [e|].
    + injection HAdd as <- <-. split; [exact He|now left].
    + destruct (0 <? TTL (config bf)) eqn:Httl.
      * apply Z.ltb_lt in Httl. destruct client as [adapter|other].
        -- injection HAdd as <- <-. split; [exact He|].
           right. exists adapter. auto.
        -- injection HAdd as <- <-. split; [exact He|now left].
      * injection HAdd as <- <-. split; [exact He|now left].
  - left. unfold Add in HAdd. rewrite Hp, Hc, Hpipe in HAdd.
    now injection HAdd as <- <-.
Qed.

(** The ways in which [Exists] returns. *)
Lemma Exists_cases bf data s r s' :
  Exists bf data s = Return r s' ->
  exists positions client,
    getHashPositions bf data = Some positions /\
    cfgRedisClient (config bf) = Some client /\
    ((Pipeline client = None /\ r = (false, Some ErrNilRedisClient) /\ s' = s)
     \/
     exists pipe replies err w1,
       Pipeline client = Some pipe /\
       Exec pipe (get_batch bf positions) (world s) = ((replies, err), w1) /\
       s' = send (CallExec (get_batch bf positions)) w1 s /\
       r = (match err with
            | Some _ => false
            | None => all_set (Vals (length positions) replies)
            end, err)).
Proof.
  intros HE.
  destruct (getHashPositions bf data) as [positions|] eqn:Hp;
    [|unfold Exists in HE; now rewrite Hp in HE].
  destruct (cfgRedisClient (config bf)) as [client|] eqn:Hc;
    [|unfold Exists in HE; now rewrite Hp, Hc in HE].
  exists positions, client. split; [reflexivity|]. split; [reflexivity|].
  destruct (Pipeline client) as [pipe|] eqn:Hpipe.
  - right.
    destruct (Exec pipe (get_batch bf positions) (world s))
      as [[replies err] w1] eqn:He.
    rewrite (Exists_unfold _ _ _ _ _ _ _ _ _ Hp Hc Hpipe He) in HE.
    simpl in HE. exists pipe, replies, err, w1.
    split; [reflexivity|]. split; [exact He|].
    destruct err as [e|]; now injection HE as <- <-.
  - left. unfold Exists in HE. rewrite Hp, Hc, Hpipe in HE.
    now injection HE as <- <-.
Qed.

Section OnContract.

Variable bit_at : W -> Bits.

(** The bits after an [Add], whatever it returned, lie between the bits
    before and the bits before together with the positions. *)
Lemma Add_bits_between bf data s r s' client :
  cfgRedisClient (config bf) = Some client ->
  StoreContract bit_at client ->
  Add bf data s = Return r s' ->
  exists positions,
    getHashPositions bf data = Some positions /\
    forall k o,
      (bit_at (world s) k o = true -> bit_at (world s') k o = true) /\
      (bit_at (world s') k o = true ->
       bit_at (world s) k o = true \/ targeted bf positions k o = true).
Proof.
  intros Hc HK HAdd.
  destruct (Add_cases _ _ _ _ _ HAdd)
    as (positions & client' & Hp & Hc' & Hcase).
  rewrite Hc in Hc'. injection Hc' as <-.
  exists positions. split; [exact Hp|]. intros k o.
  destruct Hcase as [(_ & _ & ->)|(pipe & replies & w1 & Hpipe & He & Hs')];
    [tauto|].
  assert (Hw1 :
    (bit_at (world s) k o = true -> bit_at w1 k o = true) /\
    (bit_at w1 k o = true ->
     bit_at (world s) k o = true \/ targeted bf positions k o = true)).
  { destruct r as [e|].
    - destruct (Bool.bool_dec (bit_at w1 k o) (bit_at (world s) k o))
        as [Heq|Hne]; [rewrite Heq; tauto|].
      destruct (exec_failed _ _ HK _ _ _ _ _ _ Hpipe He k o Hne)
        as (v & Hin & Hv).
      destruct (targeted_command _ _ _ _ _ Hin) as [Ht ->].
      rewrite Hv. simpl. auto.
    - destruct (exec_done _ _ HK _ _ _ _ _ Hpipe He) as [_ Hbits].
      rewrite Hbits, batch_bits_set_batch.
      destruct (targeted bf positions k o), (bit_at (world s) k o);
        simpl; auto. }
  destruct Hs' as [->|(adapter & -> & Httl & Hcl & ->)]; [exact Hw1|].
  simpl.
  destruct (client_Expire adapter (RedisKey (config bf)) (TTL (config bf)) w1)
    as [out w2] eqn:Hexp.
  simpl. rewrite (expire_keeps _ _ HK _ _ _ _ _ _ Hcl Httl Hexp k o).
  exact Hw1.
Qed.

Lemma Exists_keeps_bits bf data s r s' client :
  cfgRedisClient (config bf) = Some client ->
  StoreContract bit_at client ->
  Exists bf data s = Return r s' ->
  forall k o, bit_at (world s') k o = bit_at (world s) k o.
Proof.
  intros Hc HK HE k o.
  destruct (Exists_cases _ _ _ _ _ HE)
    as (positions & client' & Hp & Hc' & Hcase).
  rewrite Hc in Hc'. injection Hc' as <-.
  destruct Hcase
    as [(_ & _ & ->)|(pipe & replies & err & w1 & Hpipe & He & -> & _)];
    [reflexivity|].
  simpl. destruct err as [e|].
  - destruct (Bool.bool_dec (bit_at w1 k o) (bit_at (world s) k o))
      as [Heq|Hne]; [exact Heq|].
    destruct (exec_failed _ _ HK _ _ _ _ _ _ Hpipe He k o Hne)
      as (v & Hin & _).
    apply get_batch_commands in Hin as (pos & _ & Hbad). discriminate.
  - destruct (exec_done _ _ HK _ _ _ _ _ Hpipe He) as [_ Hbits].
    now rewrite Hbits, batch_bits_get_batch.
Qed.

End OnContract.

End EngineMore.


Section EngineLaws.

Context {W : Type}.
Variable bit_at : W -> Bits.
Implicit Types (bf : bloomFilter W) (data : list byte) (s : Sys W).
Implicit Types (client : RedisClient W) (pipe : pipeliner W).

(** [Exists] never writes: it sends at most one call, a batch of
    [hashCount] reads of the filter's key and nothing else, and with a
    store that honours the contract every bit is after the call what it
    was before, whether the call succeeded or failed. *)
Theorem Exists_never_writes bf data s r s' client :
  cfgRedisClient (config bf) = Some client ->
  Exists bf data s = Return r s' ->
  (exists calls,
     issued s' = issued s ++ calls /\
     (length calls <= 1)%nat /\
     forall c, In c calls ->
       exists batch,
         c = CallExec batch /\
         length batch = Z.to_nat (hashCount bf) /\
         forall cmd, In cmd batch ->
           exists o, cmd = GetBit (RedisKey (config bf)) o) /\
  (StoreContract bit_at client ->
   forall k o, bit_at (world s') k o = bit_at (world s) k o).
Proof.
  intros Hc HE. split.
  - destruct (Exists_cases _ _ _ _ _ HE)
      as (positions & client' & Hp & _ & Hcase).
    destruct Hcase
      as [(_ & _ & ->)|(pipe & replies & err & w1 & _ & _ & -> & _)].
    + exists []. rewrite app_nil_r. repeat split; [simpl; lia|intros c []].
    + exists [CallExec (get_batch bf positions)].
      split; [reflexivity|]. split; [simpl; lia|].
      intros c [<-|[]]. eexists. split; [reflexivity|]. split.
      * rewrite get_batch_length. now apply getHashPositions_length in Hp.
      * intros cmd Hin.
        apply get_batch_commands in Hin as (pos & _ & ->). eauto.
  - intros HK. exact (Exists_keeps_bits bit_at _ _ _ _ _ _ Hc HK HE).
Qed.

(** [Add] only sets bits: with a store that honours the contract, whatever
    [Add] returns, every bit that was set stays set, a bit that is set
    afterwards was set before or is one of the element's positions under
    the filter's key, the bits of every other key are untouched, and after
    a return without error all the positions are set. *)
Theorem Add_only_sets_bits bf data s r s' client :
  cfgRedisClient (config bf) = Some client ->
  StoreContract bit_at client ->
  Add bf data s = Return r s' ->
  exists positions,
    getHashPositions bf data = Some positions /\
    (forall k o, bit_at (world s) k o = true -> bit_at (world s') k o = true) /\
    (forall k o,
       bit_at (world s') k o = true ->
       bit_at (world s) k o = true \/
       (k = RedisKey (config bf) /\
        exists pos, In pos positions /\ o = int64 pos)) /\
    (forall k o,
       k <> RedisKey (config bf) ->
       bit_at (world s') k o = bit_at (world s) k o) /\
    (r = None ->
     forall pos, In pos positions ->
       bit_at (world s') (RedisKey (config bf)) (int64 pos) = true).
Proof.
  intros Hc HK HAdd.
  destruct (Add_bits_between bit_at _ _ _ _ _ _ Hc HK HAdd)
    as (positions & Hp & Hbits).
  exists positions. split; [exact Hp|].
  split; [intros k o; apply Hbits|].
  split; [|split].
  - intros k o Hset. destruct (proj2 (Hbits k o) Hset) as [Hold|Ht];
      [now left|right; now apply targeted_iff].
  - intros k o Hk.
    destruct (bit_at (world s) k o) eqn:Hold.
    + now apply Hbits.
    + destruct (bit_at (world s') k o) eqn:Hnew; [|reflexivity].
      destruct (proj2 (Hbits k o) Hnew) as [Habs|Ht]; [congruence|].
      apply targeted_iff in Ht as [Hkey _]. contradiction.
  - intros -> pos Hpos.
    destruct (Add_sets_positions bit_at _ _ _ _ _ Hc HK HAdd)
      as (positions' & Hp' & Hset).
    rewrite Hp in Hp'. injection Hp' as <-.
    now rewrite Hset, (targeted_position _ _ _ Hpos).
Qed.

(** On the wire [Exists] reads exactly the offsets [Add] writes.  For a
    [bitSize] of at most [2^63] the conversion to [int64] changes no
    position: the batch of [Add] is one [SetBit key pos 1] for every
    position, in order, each offset in [[0, bitSize)], and the batch of
    [Exists] for the same element is one [GetBit key pos] for the same
    offsets in the same order. *)
Theorem Add_and_Exists_use_the_same_offsets bf data s r s1 client pipe :
  0 <= bitSize bf <= 2 ^ 63 ->
  cfgRedisClient (config bf) = Some client ->
  Pipeline client = Some pipe ->
  Add bf data s = Return r s1 ->
  exists positions rest,
    getHashPositions bf data = Some positions /\
    length positions = Z.to_nat (hashCount bf) /\
    (forall pos, In pos positions -> 0 <= pos < bitSize bf) /\
    issued s1
    = issued s
      ++ CallExec (map (fun pos => SetBit (RedisKey (config bf)) pos 1)
                     positions) :: rest /\
    forall t r' t1,
      Exists bf data t = Return r' t1 ->
      issued t1
      = issued t
        ++ [CallExec (map (fun pos => GetBit (RedisKey (config bf)) pos)
                        positions)].
Proof.
  intros Hm Hc Hpipe HAdd.
  destruct (Add_cases _ _ _ _ _ HAdd)
    as (positions & client' & Hp & Hc' & Hcase).
  rewrite Hc in Hc'. injection Hc' as <-.
  assert (Hrange : forall pos, In pos positions -> 0 <= pos < bitSize bf)
    by (apply (getHashPositions_range bf data); [lia|exact Hp]).
  assert (Hint : forall pos, In pos positions -> int64 pos = pos).
  { intros pos Hpos. specialize (Hrange pos Hpos). unfold int64, two63.
    replace (pos <? 2 ^ 63) with true; [reflexivity|].
    symmetry. apply Z.ltb_lt. lia. }
  assert (Hset : set_batch bf positions
                 = map (fun pos => SetBit (RedisKey (config bf)) pos 1)
                     positions).
  { unfold set_batch. apply map_ext_in. intros pos Hpos.
    now rewrite (Hint pos Hpos). }
  assert (Hget : get_batch bf positions
                 = map (fun pos => GetBit (RedisKey (config bf)) pos)
                     positions).
  { unfold get_batch. apply map_ext_in. intros pos Hpos.
    now rewrite (Hint pos Hpos). }
  destruct Hcase as [(Hnone & _)|(pipe' & replies & w1 & _ & _ & Hs1)];
    [congruence|].
  assert (Hlog : exists rest,
            issued s1 = issued s ++ CallExec (set_batch bf positions) :: rest).
  { destruct Hs1 as [->|(adapter & _ & _ & _ & ->)].
    - exists []. reflexivity.
    - eexists [_]. simpl. now rewrite <- app_assoc. }
  destruct Hlog as [rest Hlog].
  exists positions, rest. split; [exact Hp|].
  split; [now apply getHashPositions_length in Hp|].
  split; [exact Hrange|]. split; [now rewrite <- Hset|].
  intros t r' t1 HE.
  destruct (Exists_cases _ _ _ _ _ HE)
    as (positions' & client' & Hp' & Hc' & Hcase).
  rewrite Hp in Hp'. injection Hp' as <-.
  rewrite Hc in Hc'. injection Hc' as <-.
  destruct Hcase
    as [(Hnone & _)|(pipe2 & replies2 & err & w2 & _ & _ & -> & _)];
    [congruence|].
  simpl. now rewrite Hget.
Qed.

(** Two inserts commute: adding [x] then [y] leaves the same bit array as
    adding [y] then [x], when all four calls return without error. *)
Theorem Add_order_is_irrelevant bf x y s s1 s2 t1 t2 client :
  cfgRedisClient (config bf) = Some client ->
  StoreContract bit_at client ->
  Add bf x s = Return None s1 ->
  Add bf y s1 = Return None s2 ->
  Add bf y s = Return None t1 ->
  Add bf x t1 = Return None t2 ->
  forall k o, bit_at (world s2) k o = bit_at (world t2) k o.
Proof.
  intros Hc HK Hx1 Hy2 Hy1 Hx2 k o.
  destruct (Add_sets_positions bit_at _ _ _ _ _ Hc HK Hx1) as (px & Hpx & H1).
  destruct (Add_sets_positions bit_at _ _ _ _ _ Hc HK Hy2) as (py & Hpy & H2).
  destruct (Add_sets_positions bit_at _ _ _ _ _ Hc HK Hy1) as (py' & Hpy' & H3).
  destruct (Add_sets_positions bit_at _ _ _ _ _ Hc HK Hx2) as (px' & Hpx' & H4).
  rewrite Hpy in Hpy'. injection Hpy' as <-.
  rewrite Hpx in Hpx'. injection Hpx' as <-.
  rewrite H2, H1, H4, H3.
  now destruct (targeted bf px k o), (targeted bf py k o).
Qed.

(** A retry completes a failed insert.  When [Add] fails, possibly after
    part of its batch was written, and the same [Add] is then repeated and
    returns without error, the bit array is exactly what a first
    successful call would have left: the bits that were set before the
    failed call, and the positions of the element. *)
Theorem retry_completes_a_failed_Add bf data s e s1 s2 client positions :
  cfgRedisClient (config bf) = Some client ->
  StoreContract bit_at client ->
  getHashPositions bf data = Some positions ->
  Add bf data s = Return (Some e) s1 ->
  Add bf data s1 = Return None s2 ->
  forall k o,
    bit_at (world s2) k o = true <->
    bit_at (world s) k o = true \/
    (k = RedisKey (config bf) /\ exists pos, In pos positions /\ o = int64 pos).
Proof.
  intros Hc HK Hp Hfail Hok k o.
  destruct (Add_bits_between bit_at _ _ _ _ _ _ Hc HK Hfail)
    as (positions' & Hp' & Hbetween).
  rewrite Hp in Hp'. injection Hp' as <-.
  destruct (Add_sets_positions bit_at _ _ _ _ _ Hc HK Hok)
    as (positions' & Hp' & Hset).
  rewrite Hp in Hp'. injection Hp' as <-.
  rewrite Hset, <- targeted_iff, orb_true_iff.
  destruct (Hbetween k o) as [Hup Hdown]. tauto.
Qed.

(** A filter without a bit set contains nothing: when no bit of the key is
    set, every query that the store answers says absent, for every
    element, as long as the handle has at least one round; a handle
    without rounds would say present. *)
Theorem Exists_on_an_empty_filter bf data s present s' client :
  cfgRedisClient (config bf) = Some client ->
  StoreContract bit_at client ->
  (forall o, bit_at (world s) (RedisKey (config bf)) o = false) ->
  Exists bf data s = Return (present, None) s' ->
  present = true <-> hashCount bf <= 0.
Proof.
  intros Hc HK Hempty HE.
  destruct (Exists_cases _ _ _ _ _ HE) as (positions & _ & Hp & _ & _).
  rewrite (Exists_reads_store_bits bit_at _ _ _ _ _ _ _ Hc HK Hp HE).
  pose proof (getHashPositions_length _ _ _ Hp) as Hlen.
  split.
  - intros Hall. destruct positions as [|pos rest]; [simpl in Hlen; lia|].
    specialize (Hall pos (or_introl eq_refl)). now rewrite Hempty in Hall.
  - intros Hk pos Hpos.
    destruct positions as [|p rest]; [destruct Hpos|simpl in Hlen; lia].
Qed.

(** When a query says present.  After an [Add] of [y] that returned
    without error, a query of any [x] that the store answers says present
    exactly when every position of [x] is a position of [y] or was already
    set before the [Add]: an element is reported although it was never
    added as soon as all its positions are covered, and is absent as soon
    as one of them is not. *)
Theorem Exists_after_Add_exact bf x y s s1 s2 client px py present :
  cfgRedisClient (config bf) = Some client ->
  StoreContract bit_at client ->
  0 <= bitSize bf <= 2 ^ 64 ->
  getHashPositions bf x = Some px ->
  getHashPositions bf y = Some py ->
  Add bf y s = Return None s1 ->
  Exists bf x s1 = Return (present, None) s2 ->
  present = true <->
  forall pos, In pos px ->
    In pos py \/ bit_at (world s) (RedisKey (config bf)) (int64 pos) = true.
Proof.
  intros Hc HK Hm Hpx Hpy HAdd HE.
  rewrite (Exists_reads_store_bits bit_at _ _ _ _ _ _ _ Hc HK Hpx HE).
  destruct (Add_sets_positions bit_at _ _ _ _ _ Hc HK HAdd)
    as (py' & Hpy' & Hset).
  rewrite Hpy in Hpy'. injection Hpy' as <-.
  assert (Hrange : forall p ps data,
            getHashPositions bf data = Some ps -> In p ps -> 0 <= p < two64).
  { intros p ps data Hps Hin.
    pose proof (getHashPositions_range bf data ps (proj1 Hm) Hps p Hin).
    unfold two64. lia. }
  assert (Hcover : forall pos, In pos px ->
            targeted bf py (RedisKey (config bf)) (int64 pos) = true <->
            In pos py).
  { intros pos Hpos. rewrite targeted_iff. split.
    - intros [_ (q & Hq & Heq)].
      apply int64_inj in Heq; [now subst|eauto|eauto].
    - intros Hin. split; [reflexivity|eauto]. }
  split; intros Hall pos Hpos; specialize (Hall pos Hpos).
  - rewrite Hset, orb_true_iff, (Hcover pos Hpos) in Hall. exact Hall.
  - rewrite Hset, orb_true_iff, (Hcover pos Hpos). exact Hall.
Qed.

(** *** The loops of the example program *)

Lemma all_positions_set_mono bf data (b1 b2 : Bits) :
  (forall k o, b1 k o = true -> b2 k o = true) ->
  all_positions_set bf data b1 -> all_positions_set bf data b2.
Proof.
  intros Hmono (positions & Hp & Hset).
  exists positions. split; [exact Hp|]. intros pos Hpos.
  apply Hmono, Hset, Hpos.
Qed.

Lemma add_each_spec bf client :
  cfgRedisClient (config bf) = Some client ->
  StoreContract bit_at client ->
  forall elements s errs s',
    add_each bf elements s = Return errs s' ->
    length errs = length elements /\
    (forall k o, bit_at (world s) k o = true -> bit_at (world s') k o = true) /\
    forall i data,
      nth_error elements i = Some data ->
      nth_error errs i = Some None ->
      all_positions_set bf data (bit_at (world s')).
Proof.
  intros Hc HK.
  induction elements as [|data rest IH]; intros s errs s'; simpl.
  - intros [= <- <-]. repeat split; [auto|].
    intros [|i] d; discriminate.
  - destruct (Add bf data s) as [|err s1] eqn:HAdd; [discriminate|].
    destruct (add_each bf rest s1) as [|errs1 s2] eqn:Hrest; [discriminate|].
    intros [= <- <-].
    destruct (IH _ _ _ Hrest) as (Hlen & Hmono & Hset).
    destruct (Add_bits_between bit_at _ _ _ _ _ _ Hc HK HAdd)
      as (positions & Hp & Hbetween).
    split; [simpl; now rewrite Hlen|].
    split; [intros k o Hb; apply Hmono, Hbetween, Hb|].
    intros [|i] d; simpl.
    + intros [= <-] [= ->].
      apply (all_positions_set_mono _ _ (bit_at (world s1))); [exact Hmono|].
      destruct (Add_sets_positions bit_at _ _ _ _ _ Hc HK HAdd)
        as (positions' & Hp' & Hbits).
      exists positions'. split; [exact Hp'|]. intros pos Hpos.
      now rewrite Hbits, (targeted_position _ _ _ Hpos).
    + apply Hset.
Qed.

Lemma check_each_spec bf client :
  cfgRedisClient (config bf) = Some client ->
  StoreContract bit_at client ->
  forall elements s answers s',
    check_each bf elements s = Return answers s' ->
    length answers = length elements /\
    forall i data,
      nth_error elements i = Some data ->
      all_positions_set bf data (bit_at (world s)) ->
      exists present err,
        nth_error answers i = Some (present, err) /\
        (err = None -> present = true).
Proof.
  intros Hc HK.
  induction elements as [|data rest IH]; intros s answers s'; simpl.
  - intros [= <- <-]. split; [reflexivity|]. intros [|i] d; discriminate.
  - destruct (Exists bf data s) as [|[present err] s1] eqn:HE; [discriminate|].
    destruct (check_each bf rest s1) as [|answers1 s2] eqn:Hrest;
      [discriminate|].
    intros [= <- <-].
    destruct (IH _ _ _ Hrest) as (Hlen & Hfound).
    split; [simpl; now rewrite Hlen|].
    intros [|i] d; simpl.
    + intros [= <-] (positions & Hp & Hset).
      exists present, err. split; [reflexivity|]. intros ->.
      now apply (Exists_reads_store_bits bit_at _ _ _ _ _ _ _ Hc HK Hp HE).
    + intros Hd Hset. apply (Hfound i d Hd).
      apply (all_positions_set_mono _ _ (bit_at (world s))); [|exact Hset].
      intros k o Hb.
      now rewrite (Exists_keeps_bits bit_at _ _ _ _ _ _ Hc HK HE k o).
Qed.

(** The example adds a slice of elements, going on after a call that
    fails, and then queries the same slice.  With a store that honours the
    contract, every element whose [Add] returned without error is reported
    present by its query, whatever happened to the other calls, unless the
    query itself returns an error. *)
Theorem added_elements_are_found bf elements s0 errs s1 answers s2 client :
  cfgRedisClient (config bf) = Some client ->
  StoreContract bit_at client ->
  add_each bf elements s0 = Return errs s1 ->
  check_each bf elements s1 = Return answers s2 ->
  length errs = length elements /\
  length answers = length elements /\
  forall i,
    nth_error errs i = Some None ->
    exists present err,
      nth_error answers i = Some (present, err) /\
      (err = None -> present = true).
Proof.
  intros Hc HK Hadd Hcheck.
  destruct (add_each_spec _ _ Hc HK _ _ _ _ Hadd) as (Hlen1 & _ & Hset).
  destruct (check_each_spec _ _ Hc HK _ _ _ _ Hcheck) as (Hlen2 & Hfound).
  split; [exact Hlen1|]. split; [exact Hlen2|].
  intros i Hi.
  destruct (nth_error elements i) as [data|] eqn:Hdata.
  - apply (Hfound i data Hdata), (Hset i data Hdata Hi).
  - apply nth_error_None in Hdata.
    assert (Hsome : nth_error errs i <> None) by congruence.
    apply nth_error_Some in Hsome. lia.
Qed.

End EngineLaws.


(** ** Round trips and filters that share a store *)

Section RoundTrips.

Context {W : Type}.
Variable bit_at : W -> Bits.
Implicit Types (bf : bloomFilter W) (data : list byte) (s : Sys W).
Implicit Types (client : RedisClient W).

(** One round trip for the bits.  Whatever [Add] returns, it sends the
    store nothing, when the pipeline is missing, or one batch, followed by
    at most one [Expire] for the filter's key; the batch holds exactly
    [hashCount] commands, each a [SetBit] of the value 1 under the filter's
    key: [Add] never reads and never writes a zero. *)
Theorem Add_sends_one_batch bf data s r s' :
  Add bf data s = Return r s' ->
  exists calls,
    issued s' = issued s ++ calls /\
    (calls = [] \/
     exists batch,
       (calls = [CallExec batch] \/
        calls = [CallExec batch;
                 CallExpire (RedisKey (config bf)) (TTL (config bf))]) /\
       length batch = Z.to_nat (hashCount bf) /\
       forall cmd, In cmd batch ->
         exists o, cmd = SetBit (RedisKey (config bf)) o 1).
Proof.
  intros HAdd.
  destruct (Add_cases _ _ _ _ _ HAdd)
    as (positions & client & Hp & _ & Hcase).
  assert (Hbatch :
    length (set_batch bf positions) = Z.to_nat (hashCount bf) /\
    forall cmd, In cmd (set_batch bf positions) ->
      exists o, cmd = SetBit (RedisKey (config bf)) o 1).
  { split.
    - rewrite set_batch_length. now apply getHashPositions_length in Hp.
    - intros cmd Hin.
      apply set_batch_commands in Hin as (pos & _ & ->). eauto. }
  destruct Hcase as [(_ & _ & ->)|(pipe & replies & w1 & _ & _ & Hs')].
  - exists []. rewrite app_nil_r. split; [reflexivity|now left].
  - destruct Hs' as [->|(adapter & _ & _ & _ & ->)].
    + exists [CallExec (set_batch bf positions)].
      split; [reflexivity|]. right.
      exists (set_batch bf positions). split; [now left|exact Hbatch].
    + exists [CallExec (set_batch bf positions);
              CallExpire (RedisKey (config bf)) (TTL (config bf))].
      split; [simpl; now rewrite <- app_assoc|]. right.
      exists (set_batch bf positions). split; [now right|exact Hbatch].
Qed.

(** Filters under different keys do not see each other.  For two handles
    on the same store whose keys differ, whatever their sizes, rounds and
    strategies, an [Add] on the first, whatever it returns, leaves a query
    on the second with the verdict it had before, when the store answers
    both queries. *)
Theorem filters_under_other_keys_are_untouched
    bf1 bf2 x y s r s1 before t1 after t2 client :
  cfgRedisClient (config bf1) = Some client ->
  cfgRedisClient (config bf2) = Some client ->
  StoreContract bit_at client ->
  RedisKey (config bf1) <> RedisKey (config bf2) ->
  Add bf1 x s = Return r s1 ->
  Exists bf2 y s = Return (before, None) t1 ->
  Exists bf2 y s1 = Return (after, None) t2 ->
  before = after.
Proof.
  intros Hc1 Hc2 HK Hkeys HAdd Hbefore Hafter.
  destruct (Exists_cases _ _ _ _ _ Hbefore)
    as (positions & _ & Hp & _ & _).
  pose proof (Exists_reads_store_bits bit_at _ _ _ _ _ _ _ Hc2 HK Hp Hbefore)
    as H1.
  pose proof (Exists_reads_store_bits bit_at _ _ _ _ _ _ _ Hc2 HK Hp Hafter)
    as H2.
  destruct (Add_bits_between bit_at _ _ _ _ _ _ Hc1 HK HAdd)
    as (px & _ & Hbetween).
  assert (Hsame : forall o,
            bit_at (world s1) (RedisKey (config bf2)) o
            = bit_at (world s) (RedisKey (config bf2)) o).
  { intros o. destruct (Hbetween (RedisKey (config bf2)) o) as [Hup Hdown].
    destruct (bit_at (world s) (RedisKey (config bf2)) o) eqn:Hold;
      [now apply Hup|].
    destruct (bit_at (world s1) (RedisKey (config bf2)) o) eqn:Hnew;
      [|reflexivity].
    destruct (Hdown eq_refl) as [Habs|Ht]; [discriminate|].
    apply targeted_iff in Ht as [Hkey _]. now destruct Hkeys. }
  assert (Hiff : before = true <-> after = true).
  { rewrite H1, H2. split; intros Hall pos Hpos; specialize (Hall pos Hpos).
    - now rewrite Hsame.
    - now rewrite <- Hsame. }
  destruct before, after; try reflexivity.
  - symmetry. now apply Hiff.
  - now apply Hiff.
Qed.

End RoundTrips.


(** ** The constructor *)

Module ConstructionMore.

Section Constructor.

Context {W : Type}.
Variables (math_Log math_Ceil : float -> float).
Variable float64_of_uint64 : Z -> float.
Variables (uint64_of_float64 uint_of_float64 : float -> Z).
Variable xxhash_Sum64 : list byte -> Z.

Let New : Config W -> Result (bloomFilter W) :=
  NewBloomFilter math_Log math_Ceil float64_of_uint64
    uint64_of_float64 uint_of_float64 xxhash_Sum64.

Lemma calls_return (bf : bloomFilter W) data s positions client :
  getHashPositions bf data = Some positions ->
  cfgRedisClient (config bf) = Some client ->
  Add bf data s <> Panic /\ Exists bf data s <> Panic.
Proof.
  intros Hp Hc. unfold Add, Exists. rewrite Hp, Hc.
  destruct (Pipeline client) as [pipe|]; [|split; discriminate].
  split.
  - destruct (Exec pipe _ (world s)) as [[replies err] w1].
    destruct err; [discriminate|].
    destruct (0 <? TTL (config bf)); [|discriminate].
    destruct client; [|discriminate].
    destruct (client_Expire _ _ _ _). discriminate.
  - destruct (Exec pipe _ (world s)) as [[replies err] w1].
    destruct err; discriminate.
Qed.


End Constructor.

End ConstructionMore.


(** ** The further properties on the in-memory store *)

Module MoreRuns.

Import MemRedis MemRedisFacts Example.

Lemma force_odd_never_wraps_witness :
  let step := force_odd 6 in
  (step = 6 \/ step = 6 + 1) /\
  0 <= step < 2 ^ 64 /\
  Z.odd step = true /\
  force_odd step = step.
Proof. apply (force_odd_never_wraps 6). lia. Defined.

Lemma zero_bitSize_panics_witness :
  let bf := zero_filter in
  (1 <= hashCount bf ->
   getHashPositions bf test_data = None /\
   Add bf test_data (boot []) = Panic /\
   Exists bf test_data (boot []) = Panic) /\
  (hashCount bf <= 0 -> getHashPositions bf test_data = Some []).
Proof.
  intros bf. apply (zero_bitSize_panics bf test_data (boot [])). reflexivity.
Defined.

Lemma positions_distinct_for_power_of_two_witness :
  let bf := power_filter in
  let positions := positions_of bf test_data in
  NoDup positions /\ Z.of_nat (length positions) = Z.max 0 (hashCount bf).
Proof.
  intros bf positions.
  apply (positions_distinct_for_power_of_two bf test_data 13 positions).
  - lia.
  - reflexivity.
  - apply Z.leb_le. reflexivity.
  - vm_compute. reflexivity.
Defined.

Lemma Exists_never_writes_witness :
  let bf := test_filter adapter 0 in
  let s := boot [] in
  let s' := after_Exists bf test_data s in
  (exists calls,
     issued s' = issued s ++ calls /\
     (length calls <= 1)%nat /\
     forall c, In c calls ->
       exists batch,
         c = CallExec batch /\
         length batch = Z.to_nat (hashCount bf) /\
         forall cmd, In cmd batch ->
           exists o, cmd = GetBit (RedisKey (config bf)) o) /\
  (StoreContract bit_at adapter ->
   forall k o, bit_at (world s') k o = bit_at (world s) k o).
Proof.
  intros bf s s'.
  apply (Exists_never_writes bit_at bf test_data s (false, None) s' adapter).
  - reflexivity.
  - vm_compute. reflexivity.
Defined.

Lemma Add_only_sets_bits_witness :
  let bf := test_filter adapter two_seconds in
  let s := boot [] in
  let s' := after_Add bf test_data s in
  exists positions,
    getHashPositions bf test_data = Some positions /\
    (forall k o, bit_at (world s) k o = true -> bit_at (world s') k o = true) /\
    (forall k o,
       bit_at (world s') k o = true ->
       bit_at (world s) k o = true \/
       (k = RedisKey (config bf) /\
        exists pos, In pos positions /\ o = int64 pos)) /\
    (forall k o,
       k <> RedisKey (config bf) ->
       bit_at (world s') k o = bit_at (world s) k o) /\
    (@None error = None ->
     forall pos, In pos positions ->
       bit_at (world s') (RedisKey (config bf)) (int64 pos) = true).
Proof.
  intros bf s s'.
  apply (Add_only_sets_bits bit_at bf test_data s None s' adapter).
  - reflexivity.
  - exact adapter_contract.
  - vm_compute. reflexivity.
Defined.

Lemma Add_and_Exists_use_the_same_offsets_witness :
  let bf := test_filter adapter 0 in
  let s := boot [] in
  let s1 := after_Add bf test_data s in
  exists positions rest,
    getHashPositions bf test_data = Some positions /\
    length positions = Z.to_nat (hashCount bf) /\
    (forall pos, In pos positions -> 0 <= pos < bitSize bf) /\
    issued s1
    = issued s
      ++ CallExec (map (fun pos => SetBit (RedisKey (config bf)) pos 1)
                     positions) :: rest /\
    forall t r' t1,
      Exists bf test_data t = Return r' t1 ->
      issued t1
      = issued t
        ++ [CallExec (map (fun pos => GetBit (RedisKey (config bf)) pos)
                        positions)].
Proof.
  intros bf s s1.
  apply (Add_and_Exists_use_the_same_offsets bf test_data s None s1
           adapter pipe).
  - split; apply Z.leb_le; reflexivity.
  - reflexivity.
  - reflexivity.
  - vm_compute. reflexivity.
Defined.

Lemma Add_order_is_irrelevant_witness :
  let bf := test_filter adapter 0 in
  let s := boot [] in
  let s2 := after_Add bf other_data (after_Add bf test_data s) in
  let t2 := after_Add bf test_data (after_Add bf other_data s) in
  Add bf other_data (after_Add bf test_data s) = Return None s2 /\
  forall k o, bit_at (world s2) k o = bit_at (world t2) k o.
Proof.
  intros bf s s2 t2.
  split; [vm_compute; reflexivity|].
  apply (Add_order_is_irrelevant bit_at bf test_data other_data s
           (after_Add bf test_data s) s2
           (after_Add bf other_data s) t2 adapter).
  - reflexivity.
  - exact adapter_contract.
  - vm_compute. reflexivity.
  - vm_compute. reflexivity.
  - vm_compute. reflexivity.
  - vm_compute. reflexivity.
Defined.

Lemma retry_completes_a_failed_Add_witness :
  let bf := test_filter adapter 0 in
  let s := boot [Broken 3 "i/o timeout"] in
  let s2 := after_Add bf test_data (after_Add bf test_data s) in
  let positions := positions_of bf test_data in
  Add bf test_data s
  = Return (Some (StoreError "i/o timeout")) (after_Add bf test_data s) /\
  forall k o,
    bit_at (world s2) k o = true <->
    bit_at (world s) k o = true \/
    (k = RedisKey (config bf) /\ exists pos, In pos positions /\ o = int64 pos).
Proof.
  intros bf s s2 positions.
  split; [vm_compute; reflexivity|].
  apply (retry_completes_a_failed_Add bit_at bf test_data s
           (StoreError "i/o timeout") (after_Add bf test_data s) s2
           adapter positions).
  - reflexivity.
  - exact adapter_contract.
  - vm_compute. reflexivity.
  - vm_compute. reflexivity.
  - vm_compute. reflexivity.
Defined.

Lemma Exists_on_an_empty_filter_witness :
  let bf := test_filter adapter 0 in
  false = true <-> hashCount bf <= 0.
Proof.
  intros bf.
  apply (Exists_on_an_empty_filter bit_at bf test_data (boot []) false
           (after_Exists bf test_data (boot [])) adapter).
  - reflexivity.
  - exact adapter_contract.
  - intros o. unfold bit_at, bits_of, value_of. simpl.
    rewrite lookup_empty. apply Z.testbit_0_l.
  - vm_compute. reflexivity.
Defined.

Lemma Exists_after_Add_exact_witness :
  let bf := test_filter adapter 0 in
  let s := boot [] in
  let px := positions_of bf other_data in
  let py := positions_of bf test_data in
  false = true <->
  forall pos, In pos px ->
    In pos py \/ bit_at (world s) (RedisKey (config bf)) (int64 pos) = true.
Proof.
  intros bf s px py.
  apply (Exists_after_Add_exact bit_at bf other_data test_data s
           (after_Add bf test_data s)
           (after_Exists bf other_data (after_Add bf test_data s))
           adapter px py false).
  - reflexivity.
  - exact adapter_contract.
  - split; apply Z.leb_le; reflexivity.
  - vm_compute. reflexivity.
  - vm_compute. reflexivity.
  - vm_compute. reflexivity.
  - vm_compute. reflexivity.
Defined.

Lemma added_elements_are_found_witness :
  let bf := email_filter in
  let s0 := boot [Healthy; Healthy; Broken 2 "i/o timeout"] in
  let errs := result_of (add_each bf emails s0) [] in
  let s1 := state_after (add_each bf emails s0) s0 in
  let answers := result_of (check_each bf emails s1) [] in
  errs = [None; Some (StoreError "i/o timeout"); None] /\
  length errs = length emails /\
  length answers = length emails /\
  forall i,
    nth_error errs i = Some None ->
    exists present err,
      nth_error answers i = Some (present, err) /\
      (err = None -> present = true).
Proof.
  intros bf s0 errs s1 answers.
  split; [vm_compute; reflexivity|].
  apply (added_elements_are_found bit_at bf emails s0 errs s1 answers
           (state_after (check_each bf emails s1) s1) adapter).
  - reflexivity.
  - exact adapter_contract.
  - vm_compute. reflexivity.
  - vm_compute. reflexivity.
Defined.

Lemma Add_sends_one_batch_witness :
  let bf := test_filter adapter two_seconds in
  let s := boot [] in
  let s' := after_Add bf test_data s in
  exists calls,
    issued s' = issued s ++ calls /\
    (calls = [] \/
     exists batch,
       (calls = [CallExec batch] \/
        calls = [CallExec batch;
                 CallExpire (RedisKey (config bf)) (TTL (config bf))]) /\
       length batch = Z.to_nat (hashCount bf) /\
       forall cmd, In cmd batch ->
         exists o, cmd = SetBit (RedisKey (config bf)) o 1).
Proof.
  intros bf s s'.
  apply (Add_sends_one_batch bf test_data s None s').
  vm_compute. reflexivity.
Defined.

Lemma filters_under_other_keys_are_untouched_witness :
  let bf1 := test_filter adapter 0 in
  let bf2 := other_key_filter in
  let s1 := after_Add bf1 test_data (boot []) in
  Add bf1 test_data (boot []) = Return None s1 /\
  false = false.
Proof.
  intros bf1 bf2 s1.
  split; [vm_compute; reflexivity|].
  apply (filters_under_other_keys_are_untouched bit_at bf1 bf2
           test_data test_data (boot []) None s1
           false (after_Exists bf2 test_data (boot []))
           false (after_Exists bf2 test_data s1) adapter).
  - reflexivity.
  - reflexivity.
  - exact adapter_contract.
  - vm_compute. discriminate.
  - vm_compute. reflexivity.
  - vm_compute. reflexivity.
  - vm_compute. reflexivity.
Defined.

Lemma NewBloomFilter_validation_witness :
  let cfg := test_config adapter 0 in
  exists bf,
    idle_New cfg = Ok bf /\
    RedisKey (config bf) = RedisKey cfg /\
    TTL (config bf) = TTL cfg.
Proof.
  intros cfg.
  destruct (Construction.NewBloomFilter_validation
              idle_float idle_float idle_of_uint64 idle_to_uint idle_to_uint
              idle_digest cfg)
    as (_ & _ & _ & _ & Hok).
  - vm_compute. discriminate.
  - destruct Hok as (bf & Hnew & _ & Hkey & _ & Httl & _).
    + discriminate.
    + reflexivity.
    + discriminate.
    + discriminate.
    + exists bf. split; [exact Hnew|]. split; [exact Hkey|exact Httl].
Defined.


End MoreRuns.
